(** * Gemini Live voice client: the log, the session hook and the PCM codec

    A shallow embedding of [src/App.tsx] ([addLog]) and of the
    [useLiveAPI] hook ([connect], the session callbacks, [disconnect]),
    with JavaScript numbers as IEEE 754 binary64 floats. *)

From Stdlib Require Import Floats ZArith QArith Qabs Qround Uint63.
From Stdlib Require Import List String Bool Lia Lqa.
Import ListNotations.

Local Open Scope Z_scope.

(** ** JavaScript numbers *)

Module JS.

(** [Math.max(a, b)]: NaN if either argument is NaN, otherwise the larger
    one, [+0] counting as larger than [-0]. *)
Definition Math_max (a b : float) : float :=
  if (is_nan a || is_nan b)%bool then nan
  else if (a <? b)%float then b
  else if (b <? a)%float then a
  else if get_sign a then b else a.

(** [Math.min(a, b)]: NaN if either argument is NaN, otherwise the smaller
    one, [-0] counting as smaller than [+0]. *)
Definition Math_min (a b : float) : float :=
  if (is_nan a || is_nan b)%bool then nan
  else if (a <? b)%float then a
  else if (b <? a)%float then b
  else if get_sign a then a else b.

Definition Math_sqrt (x : float) : float := PrimFloat.sqrt x.

(** The [length] of an array, as a number (lengths are below [2^63]). *)
Definition length_number {A : Type} (l : list A) : float :=
  of_uint63 (Uint63.of_Z (Z.of_nat (List.length l))).

(** [Array.prototype.slice(-n)]: the last [n] elements (all of them when
    there are fewer). *)
Definition slice_last {A : Type} (n : nat) (l : list A) : list A :=
  skipn (List.length l - n) l.

(** JavaScript truthiness of an optional string: [undefined] and the empty
    string are falsy. *)
Definition truthy (s : option string) : bool :=
  match s with
  | None => false
  | Some EmptyString => false
  | Some (String _ _) => true
  end.

End JS.

(** Specification-level views of a binary64 value: not NaN and not below
    zero; not NaN and of sign [s]. *)
Definition SFnonneg (x : spec_float) : bool :=
  match x with
  | S754_zero _ => true
  | S754_infinity s => negb s
  | S754_finite s _ _ => negb s
  | S754_nan => false
  end.

Definition SFsigned (s : bool) (x : spec_float) : Prop :=
  match x with
  | S754_nan => False
  | S754_zero s' | S754_infinity s' | S754_finite s' _ _ => s' = s
  end.

(** ** The transcript log ([types.ts], [App.tsx]) *)

Inductive Role := user | model | system.

Record LogMessage := mkLog { role : Role; text : string; timestamp : Z }.

(** [setLogs(prev => [...prev, message].slice(-50))] *)
Definition addLog (prev : list LogMessage) (message : LogMessage)
  : list LogMessage :=
  JS.slice_last 50 (prev ++ [message]).

(** The log after a sequence of appends, starting from [start]. *)
Definition addLogs (start : list LogMessage) (messages : list LogMessage)
  : list LogMessage :=
  fold_left addLog messages start.

(** ** The session hook ([useLiveAPI]) *)

Module LiveAPI.

(** Calls the hook makes on the browser and on the remote service, in the
    order they are made.  Objects are named by their identity. *)
Inductive Call :=
| NewAudioContext (ctx : nat)
| GetUserMedia
| LiveConnect (session : nat)
| SessionClose (session : nat)
| SendRealtimeInput (session : nat) (mimeType : string)
| CreateMediaStreamSource (node : nat)
| CreateScriptProcessor (node : nat) (bufferSize : Z)
| NodeDisconnect (node : nat)
| ContextClose (ctx : nat)
| SourceStart (source : nat) (when : float)
| SourceStop (source : nat).

Inductive PromiseState := Pending | Fulfilled | Rejected (reason : string).

Inductive MediaAccess := Granted | Denied (reason : string).

(** What [await decodeAudioData(base64ToArrayBuffer(data), ctx, rate)]
    yields for an inline payload: a buffer, of which the scheduler only reads
    the [duration], or an exception. *)
Inductive DecodeOutcome :=
| Decoded (duration : float)
| DecodeError (reason : string).

(** The fields of a [LiveServerMessage] the handler looks at. *)
Record LiveServerMessage := mkMessage {
  outputTranscription : option string;
  turnComplete : bool;
  inlineData : option DecodeOutcome;
  interrupted : bool
}.

(** React state, the hook's refs, the log of [App], and the part of the
    browser the hook depends on. *)
Record World := mkWorld {
  connected : bool;
  volume : float;
  sessionPromiseRef : option nat;
  inputAudioContextRef : option nat;
  outputAudioContextRef : option nat;
  nextStartTimeRef : float;
  audioSourcesRef : list nat;
  inputSourceRef : option nat;
  processorRef : option nat;
  logs : list LogMessage;
  (* the environment *)
  fresh : nat;
  calls : list Call;
  API_KEY : option string;
  microphone : MediaAccess;
  wall_clock : Z;
  promise_state : nat -> PromiseState;
  stop_raises : nat -> bool
}.

Definition set_connected (v : bool) (w : World) : World :=
  mkWorld v (volume w) (sessionPromiseRef w) (inputAudioContextRef w)
    (outputAudioContextRef w) (nextStartTimeRef w) (audioSourcesRef w)
    (inputSourceRef w) (processorRef w) (logs w) (fresh w) (calls w)
    (API_KEY w) (microphone w) (wall_clock w) (promise_state w) (stop_raises w).

Definition set_volume (v : float) (w : World) : World :=
  mkWorld (connected w) v (sessionPromiseRef w) (inputAudioContextRef w)
    (outputAudioContextRef w) (nextStartTimeRef w) (audioSourcesRef w)
    (inputSourceRef w) (processorRef w) (logs w) (fresh w) (calls w)
    (API_KEY w) (microphone w) (wall_clock w) (promise_state w) (stop_raises w).

Definition set_sessionPromiseRef (v : option nat) (w : World) : World :=
  mkWorld (connected w) (volume w) v (inputAudioContextRef w)
    (outputAudioContextRef w) (nextStartTimeRef w) (audioSourcesRef w)
    (inputSourceRef w) (processorRef w) (logs w) (fresh w) (calls w)
    (API_KEY w) (microphone w) (wall_clock w) (promise_state w) (stop_raises w).

Definition set_inputAudioContextRef (v : option nat) (w : World) : World :=
  mkWorld (connected w) (volume w) (sessionPromiseRef w) v
    (outputAudioContextRef w) (nextStartTimeRef w) (audioSourcesRef w)
    (inputSourceRef w) (processorRef w) (logs w) (fresh w) (calls w)
    (API_KEY w) (microphone w) (wall_clock w) (promise_state w) (stop_raises w).

Definition set_outputAudioContextRef (v : option nat) (w : World) : World :=
  mkWorld (connected w) (volume w) (sessionPromiseRef w)
    (inputAudioContextRef w) v (nextStartTimeRef w) (audioSourcesRef w)
    (inputSourceRef w) (processorRef w) (logs w) (fresh w) (calls w)
    (API_KEY w) (microphone w) (wall_clock w) (promise_state w) (stop_raises w).

Definition set_nextStartTimeRef (v : float) (w : World) : World :=
  mkWorld (connected w) (volume w) (sessionPromiseRef w)
    (inputAudioContextRef w) (outputAudioContextRef w) v (audioSourcesRef w)
    (inputSourceRef w) (processorRef w) (logs w) (fresh w) (calls w)
    (API_KEY w) (microphone w) (wall_clock w) (promise_state w) (stop_raises w).

Definition set_audioSourcesRef (v : list nat) (w : World) : World :=
  mkWorld (connected w) (volume w) (sessionPromiseRef w)
    (inputAudioContextRef w) (outputAudioContextRef w) (nextStartTimeRef w) v
    (inputSourceRef w) (processorRef w) (logs w) (fresh w) (calls w)
    (API_KEY w) (microphone w) (wall_clock w) (promise_state w) (stop_raises w).

Definition set_inputSourceRef (v : option nat) (w : World) : World :=
  mkWorld (connected w) (volume w) (sessionPromiseRef w)
    (inputAudioContextRef w) (outputAudioContextRef w) (nextStartTimeRef w)
    (audioSourcesRef w) v (processorRef w) (logs w) (fresh w) (calls w)
    (API_KEY w) (microphone w) (wall_clock w) (promise_state w) (stop_raises w).

Definition set_processorRef (v : option nat) (w : World) : World :=
  mkWorld (connected w) (volume w) (sessionPromiseRef w)
    (inputAudioContextRef w) (outputAudioContextRef w) (nextStartTimeRef w)
    (audioSourcesRef w) (inputSourceRef w) v (logs w) (fresh w) (calls w)
    (API_KEY w) (microphone w) (wall_clock w) (promise_state w) (stop_raises w).

Definition set_logs (v : list LogMessage) (w : World) : World :=
  mkWorld (connected w) (volume w) (sessionPromiseRef w)
    (inputAudioContextRef w) (outputAudioContextRef w) (nextStartTimeRef w)
    (audioSourcesRef w) (inputSourceRef w) (processorRef w) v (fresh w)
    (calls w) (API_KEY w) (microphone w) (wall_clock w) (promise_state w)
    (stop_raises w).

Definition set_fresh (v : nat) (w : World) : World :=
  mkWorld (connected w) (volume w) (sessionPromiseRef w)
    (inputAudioContextRef w) (outputAudioContextRef w) (nextStartTimeRef w)
    (audioSourcesRef w) (inputSourceRef w) (processorRef w) (logs w) v
    (calls w) (API_KEY w) (microphone w) (wall_clock w) (promise_state w)
    (stop_raises w).

Definition set_calls (v : list Call) (w : World) : World :=
  mkWorld (connected w) (volume w) (sessionPromiseRef w)
    (inputAudioContextRef w) (outputAudioContextRef w) (nextStartTimeRef w)
    (audioSourcesRef w) (inputSourceRef w) (processorRef w) (logs w)
    (fresh w) v (API_KEY w) (microphone w) (wall_clock w) (promise_state w)
    (stop_raises w).

(** *** Handlers as state transformers that may throw

    A JavaScript exception does not undo the writes made before it, so the
    world is returned with every completion.  [Parked] is an [async]
    function waiting on a promise that has not settled. *)

Inductive Completion (A : Type) :=
| Normal (a : A)
| Throw (e : string)
| Parked.
Arguments Normal {A} a.
Arguments Throw {A} e.
Arguments Parked {A}.

Definition M (A : Type) : Type := World -> Completion A * World.

Definition ret {A} (a : A) : M A := fun w => (Normal a, w).

Definition bind {A B} (c : M A) (k : A -> M B) : M B :=
  fun w =>
    match c w with
    | (Normal a, w') => k a w'
    | (Throw e, w') => (Throw e, w')
    | (Parked, w') => (Parked, w')
    end.

Definition throw {A} (e : string) : M A := fun w => (Throw e, w).

(** [try { c } catch (e) { h(e) }] *)
Definition try_catch {A} (c : M A) (h : string -> M A) : M A :=
  fun w =>
    match c w with
    | (Throw e, w') => h e w'
    | r => r
    end.

Definition get : M World := fun w => (Normal w, w).

Definition modify (f : World -> World) : M unit := fun w => (Normal tt, f w).

Declare Scope js_scope.
Delimit Scope js_scope with js.
Notation "x <- c ;; k" := (bind c (fun x => k))
  (at level 61, c at next level, right associativity) : js_scope.
Notation "c ;; k" := (bind c (fun _ => k))
  (at level 61, right associativity) : js_scope.
Local Open Scope js_scope.

(** The world a handler leaves behind, and how it completed. *)
Definition exec {A} (c : M A) (w : World) : World := snd (c w).
Definition completion {A} (c : M A) (w : World) : Completion A := fst (c w).

(** [collection.forEach(f)]: an exception in [f] ends the iteration. *)
Fixpoint forEach {A} (l : list A) (f : A -> M unit) : M unit :=
  match l with
  | [] => ret tt
  | x :: rest => f x ;; forEach rest f
  end.

(** [ref.current?.method()] *)
Definition optional {A} (r : option A) (f : A -> M unit) : M unit :=
  match r with
  | Some a => f a
  | None => ret tt
  end.

Definition call (c : Call) : M unit :=
  modify (fun w => set_calls (calls w ++ [c]) w).

(** A new object: its identity is the next unused one. *)
Definition new_object : M nat :=
  fun w => (Normal (fresh w), set_fresh (S (fresh w)) w).

(** [onLog({ role, text, timestamp: new Date() })], with [onLog = addLog]. *)
Definition onLog (r : Role) (t : string) : M unit :=
  modify (fun w => set_logs (addLog (logs w) (mkLog r t (wall_clock w))) w).

Definition setConnected (v : bool) : M unit := modify (set_connected v).
Definition setVolume (v : float) : M unit := modify (set_volume v).

(** [await p] *)
Definition await (p : nat) : M nat :=
  fun w =>
    match promise_state w p with
    | Fulfilled => (Normal p, w)
    | Rejected e => (Throw e, w)
    | Pending => (Parked, w)
    end.

Definition new_AudioContext : M nat :=
  ctx <- new_object ;; call (NewAudioContext ctx) ;; ret ctx.

(** [await navigator.mediaDevices.getUserMedia({ audio: true })] *)
Definition getUserMedia : M unit :=
  call GetUserMedia ;;
  w <- get ;;
  match microphone w with
  | Granted => ret tt
  | Denied reason => throw reason
  end.

(** [ai.live.connect({...})]: the request to the remote service; the
    promise it returns stands for the session. *)
Definition live_connect : M nat :=
  session <- new_object ;; call (LiveConnect session) ;; ret session.

(** [source.stop()] *)
Definition source_stop (s : nat) : M unit :=
  call (SourceStop s) ;;
  w <- get ;;
  if stop_raises w s then throw "InvalidStateError" else ret tt.

(** [audioSourcesRef.current.add(source)] *)
Definition sources_add (s : nat) (l : list nat) : list nat :=
  if existsb (Nat.eqb s) l then l else l ++ [s].

(** [audioSourcesRef.current.delete(source)] *)
Definition sources_delete (s : nat) (l : list nat) : list nat :=
  filter (fun x => negb (Nat.eqb s x)) l.

(** *** [connect]

    The constructors ([new GoogleGenAI], [new AudioContext]) are taken not
    to throw; the outcome of [getUserMedia] is the world's [microphone]. *)

Definition connect : M unit :=
  w <- get ;;
  if negb (JS.truthy (API_KEY w)) then
    onLog system "API Key not found in environment."
  else
    try_catch
      (input <- new_AudioContext ;;
       modify (set_inputAudioContextRef (Some input)) ;;
       output <- new_AudioContext ;;
       modify (set_outputAudioContextRef (Some output)) ;;
       modify (set_nextStartTimeRef 0%float) ;;
       onLog system "Connecting to Gemini Live..." ;;
       getUserMedia ;;
       session <- live_connect ;;
       modify (set_sessionPromiseRef (Some session)))
      (fun e =>
         onLog system ("Connection Failed: " ++ e) ;;
         setConnected false).

(** *** The session callbacks *)

Definition onopen : M unit :=
  setConnected true ;;
  onLog system "Session Connected." ;;
  w <- get ;;
  match inputAudioContextRef w with
  | None => ret tt
  | Some _ =>
      source <- new_object ;;
      call (CreateMediaStreamSource source) ;;
      processor <- new_object ;;
      call (CreateScriptProcessor processor 4096) ;;
      modify (set_inputSourceRef (Some source)) ;;
      modify (set_processorRef (Some processor))
  end.

(** The loop of [onaudioprocess]:
    [for (i = 0; i < inputData.length; i++) sum += inputData[i] * inputData[i]] *)
Definition sum_squares (inputData : list float) : float :=
  fold_left (fun sum x => (sum + x * x)%float) inputData 0%float.

Definition rms (inputData : list float) : float :=
  JS.Math_sqrt (sum_squares inputData / JS.length_number inputData)%float.

(** [Math.min(1, rms * 5)] *)
Definition display_volume (inputData : list float) : float :=
  JS.Math_min 1%float (rms inputData * 5)%float.

(** [createPcmBlob] is not part of the sources; of the blob only the fact
    that it is sent matters here.  The [then] callback runs once the session
    promise is fulfilled; a promise that is still pending keeps it for
    later, which this model does not follow. *)
Definition onaudioprocess (inputData : list float) : M unit :=
  setVolume (display_volume inputData) ;;
  w <- get ;;
  optional (sessionPromiseRef w)
    (fun p =>
       match promise_state w p with
       | Fulfilled => call (SendRealtimeInput p "audio/pcm")
       | _ => ret tt
       end).

(** The scheduling of one decoded buffer on the output timeline; [now] is
    [ctx.currentTime]. *)
Definition schedule (now : float) (duration : float) : M unit :=
  source <- new_object ;;
  w <- get ;;
  let startTime := JS.Math_max now (nextStartTimeRef w) in
  call (SourceStart source startTime) ;;
  modify (set_nextStartTimeRef (startTime + duration)%float) ;;
  modify (fun w => set_audioSourcesRef (sources_add source (audioSourcesRef w)) w).

(** The flush on interruption. *)
Definition flush : M unit :=
  onLog system "Interrupted by user." ;;
  w <- get ;;
  forEach (audioSourcesRef w)
    (fun src => try_catch (source_stop src) (fun _ => ret tt)) ;;
  modify (set_audioSourcesRef []) ;;
  modify (set_nextStartTimeRef 0%float).

Definition onmessage (message : LiveServerMessage) (now : float) : M unit :=
  optional (outputTranscription message) (fun t => onLog model t) ;;
  w <- get ;;
  match inlineData message, outputAudioContextRef w with
  | Some payload, Some _ =>
      match payload with
      | Decoded duration => schedule now duration
      | DecodeError reason => throw reason
      end
  | _, _ => ret tt
  end ;;
  if interrupted message then flush else ret tt.

(** [source.onended = () => audioSourcesRef.current.delete(source)] *)
Definition onended (source : nat) : M unit :=
  modify (fun w => set_audioSourcesRef (sources_delete source (audioSourcesRef w)) w).

Definition onclose : M unit :=
  setConnected false ;;
  onLog system "Session Closed.".

Definition onerror (type : option string) : M unit :=
  onLog system ("Error: " ++ (if JS.truthy type
                              then match type with Some t => t | None => EmptyString end
                              else "Unknown error")) ;;
  setConnected false.

(** *** [disconnect] *)

Definition disconnect : M unit :=
  w <- get ;;
  optional (sessionPromiseRef w)
    (fun p => session <- await p ;; call (SessionClose session)) ;;
  optional (inputSourceRef w) (fun n => call (NodeDisconnect n)) ;;
  optional (processorRef w) (fun n => call (NodeDisconnect n)) ;;
  optional (inputAudioContextRef w) (fun c => call (ContextClose c)) ;;
  optional (outputAudioContextRef w) (fun c => call (ContextClose c)) ;;
  forEach (audioSourcesRef w) source_stop ;;
  modify (set_audioSourcesRef []) ;;
  setConnected false ;;
  setVolume 0%float.

(** [sendVideoFrame(base64Image)] *)
Definition sendVideoFrame : M unit :=
  w <- get ;;
  match sessionPromiseRef w with
  | None => ret tt
  | Some p =>
      session <- await p ;;
      call (SendRealtimeInput session "image/jpeg")
  end.

(** *** The event loop

    Every callback runs on the one event loop.  An [await] inside a handler
    is resolved at once, by the outcome the world or the event holds:
    handlers are not interleaved at their awaits. *)
Inductive Event :=
| Connect
| Open
| AudioProcess (inputData : list float)
| Message (message : LiveServerMessage) (now : float)
| Ended (source : nat)
| Close
| Error (type : option string)
| Disconnect
| VideoFrame.

Definition handle (e : Event) : M unit :=
  match e with
  | Connect => connect
  | Open => onopen
  | AudioProcess inputData => onaudioprocess inputData
  | Message message now => onmessage message now
  | Ended source => onended source
  | Close => onclose
  | Error type => onerror type
  | Disconnect => disconnect
  | VideoFrame => sendVideoFrame
  end.

Definition run (events : list Event) (w : World) : World :=
  fold_left (fun w e => exec (handle e) w) events w.

(** The hook when it mounts: nothing connected, no refs set, an empty log. *)
Definition initial (key : option string) (mic : MediaAccess) (clock : Z)
    (promises : nat -> PromiseState) (raises : nat -> bool) : World :=
  mkWorld false 0%float None None None 0%float [] None None [] 0%nat []
    key mic clock promises raises.

(** The sessions that were requested and not closed. *)
Definition opened (cs : list Call) : list nat :=
  flat_map (fun c => match c with LiveConnect s => [s] | _ => [] end) cs.

Definition closed (cs : list Call) : list nat :=
  flat_map (fun c => match c with SessionClose s => [s] | _ => [] end) cs.

Definition live_sessions (w : World) : list nat :=
  filter (fun s => negb (existsb (Nat.eqb s) (closed (calls w))))
         (opened (calls w)).

Definition stop_requested (s : nat) (w : World) : bool :=
  existsb (fun c => match c with SourceStop s' => Nat.eqb s s' | _ => false end)
          (calls w).

(** The playback timeline of a run of chunks, each given as the clock
    reading at which it is scheduled and its duration: the [(start, end)]
    of every source, from cursor [cursor]. *)
Fixpoint timeline (cursor : float) (chunks : list (float * float))
  : list (float * float) :=
  match chunks with
  | [] => []
  | (now, duration) :: rest =>
      let startTime := JS.Math_max now cursor in
      (startTime, (startTime + duration)%float)
        :: timeline (startTime + duration)%float rest
  end.

(** The message carrying one audio chunk and nothing else. *)
Definition audio_chunk (duration : float) : LiveServerMessage :=
  mkMessage None false (Some (Decoded duration)) false.

(** A run of audio chunks handled one after the other. *)
Fixpoint play (chunks : list (float * float)) : M unit :=
  match chunks with
  | [] => ret tt
  | (now, duration) :: rest =>
      onmessage (audio_chunk duration) now ;; play rest
  end.

(** The [source.start] calls of a timeline, the sources numbered from [id]. *)
Fixpoint start_calls (id : nat) (tl : list (float * float)) : list Call :=
  match tl with
  | [] => []
  | (startTime, _) :: rest => SourceStart id startTime :: start_calls (S id) rest
  end.

(** No source of a timeline starts before the one scheduled just before it
    has ended. *)
Fixpoint no_overlap (tl : list (float * float)) : bool :=
  match tl with
  | (_, end1) :: rest =>
      match rest with
      | (start2, _) :: _ => (end1 <=? start2)%float
      | [] => true
      end && no_overlap rest
  | [] => true
  end.

(** The inline audio of the message, if it has any, decodes. *)
Definition decodes (message : LiveServerMessage) : bool :=
  match inlineData message with
  | Some (DecodeError _) => false
  | _ => true
  end.

(** The handler gets as far as the interruption check: nothing is decoded
    (there is no inline audio, or no output context), or the audio decodes. *)
Definition reaches_flush (message : LiveServerMessage) (w : World) : bool :=
  decodes message
  || match outputAudioContextRef w with None => true | Some _ => false end.

(** The events on which the handler writes zero to the timeline cursor. *)
Definition resets (e : Event) (w : World) : bool :=
  match e with
  | Connect => JS.truthy (API_KEY w)
  | Message message _ => interrupted message && reaches_flush message w
  | _ => false
  end.

(** The clock reading and the duration an event brings are numbers that are
    not negative. *)
Definition wellformed (e : Event) : bool :=
  match e with
  | Message message now =>
      (0 <=? now)%float
      && match inlineData message with
         | Some (Decoded duration) => (0 <=? duration)%float
         | _ => true
         end
  | _ => true
  end.

(** *** The worlds the handlers leave behind

    Closed forms of what the handlers do to the world, used to state their
    equations. *)

(** After [onLog({ role, text, timestamp })]. *)
Definition logged (r : Role) (t : string) (w : World) : World :=
  set_logs (addLog (logs w) (mkLog r t (wall_clock w))) w.

(** After the transcription branch of [onmessage]. *)
Definition transcribed (message : LiveServerMessage) (w : World) : World :=
  match outputTranscription message with
  | Some t => logged model t w
  | None => w
  end.

(** After [schedule now duration]. *)
Definition scheduled (now duration : float) (w : World) : World :=
  let startTime := JS.Math_max now (nextStartTimeRef w) in
  set_audioSourcesRef (sources_add (fresh w) (audioSourcesRef w))
    (set_nextStartTimeRef (startTime + duration)%float
       (set_calls (calls w ++ [SourceStart (fresh w) startTime])
          (set_fresh (S (fresh w)) w))).

(** After [flush]. *)
Definition flushed (w : World) : World :=
  let w1 := logged system "Interrupted by user." w in
  set_nextStartTimeRef 0%float
    (set_audioSourcesRef []
       (set_calls (calls w1 ++ map SourceStop (audioSourcesRef w1)) w1)).

(** After [ref.current?.method()], for a method that only records its call. *)
Definition appended (r : option nat) (f : nat -> Call) (w : World) : World :=
  match r with
  | Some n => set_calls (calls w ++ [f n]) w
  | None => w
  end.

(** After [play chunks]. *)
Fixpoint played (chunks : list (float * float)) (w : World) : World :=
  match chunks with
  | [] => w
  | (now, duration) :: rest => played rest (scheduled now duration w)
  end.

(** A chunk whose clock reading and duration are numbers, not negative. *)
Definition chunk_ok (c : float * float) : Prop :=
  (0 <=? fst c)%float = true /\ (0 <=? snd c)%float = true.

(** A computation that leaves the timeline cursor as it found it, however
    it completes. *)
Definition keeps_cursor {A} (c : M A) : Prop :=
  forall w, nextStartTimeRef (snd (c w)) = nextStartTimeRef w.

(** The entry [connect] logs when no API key is configured. *)
Definition missing_key_entry (w : World) : LogMessage :=
  mkLog system "API Key not found in environment." (wall_clock w).

(** *** Concrete worlds and inputs *)

Definition no_key : World :=
  initial None Granted 0 (fun _ => Pending) (fun _ => false).

Definition with_key : World :=
  initial (Some "key"%string) Granted 0 (fun _ => Pending) (fun _ => false).

(** The hook after a first [connect]. *)
Definition once_connected : World := Eval vm_compute in exec connect with_key.

Definition all_fulfilled : World :=
  initial (Some "key"%string) Granted 0 (fun _ => Fulfilled) (fun _ => false).

Definition connected_world : World :=
  Eval vm_compute in run [Connect; Open] all_fulfilled.

(** One chunk of half a second scheduled at clock time 10. *)
Definition playing : World :=
  Eval vm_compute in
    run [Connect; Open; Message (audio_chunk 0.5) 10] all_fulfilled.

Definition one_chunk_then_disconnect : list Event :=
  [Connect; Open; Message (audio_chunk 0.5) 10; Disconnect].

Definition two_chunks : list (float * float) :=
  [(10, 0.5); (10.25, 0.5)]%float.

(** A message that only carries the interruption flag. *)
Definition interruption : LiveServerMessage := mkMessage None false None true.

(** A loud frame and then three chunks: the sources 5, 6 and 7 are pending;
    [raises] tells which of them raise when stopped. *)
Definition three_pending (raises : nat -> bool) : World :=
  Eval vm_compute in
    run [Connect; Open; AudioProcess [0.5%float];
         Message (audio_chunk 0.5) 10; Message (audio_chunk 0.5) 10;
         Message (audio_chunk 0.5) 10]
        (initial (Some "key"%string) Granted 0 (fun _ => Fulfilled) raises).

Definition silence : list float := repeat 0%float 4096.

Definition frame_with_nan : list float := nan :: repeat 0%float 4095.

Definition loud_frame : list float := [0.5; (- 0.25); 0; 0.75]%float.

(** Two frames of 4096 equal samples. *)
Definition quiet_frame : list float := repeat 0.125%float 4096.

Definition clipping_frame : list float := repeat (- 0.5)%float 4096.

(** *** Invariants, outcomes and further states *)

(** A handler keeps an invariant of the state, however it ends. *)
Definition preserves (Inv : World -> Prop) {A} (c : M A) : Prop :=
  forall w, Inv w -> Inv (snd (c w)).

(** The bound [addLog] keeps. *)
Definition log_bounded (w : World) : Prop := (List.length (logs w) <= 50)%nat.

(** [source.start(t)] was called on [s]. *)
Definition started (s : nat) (cs : list Call) : Prop :=
  exists t, In (SourceStart s t) cs.

(** The set of pending sources holds each source once, and only sources
    that were created and started. *)
Definition sources_started (w : World) : Prop :=
  NoDup (audioSourcesRef w) /\
  forall s, In s (audioSourcesRef w) -> started s (calls w) /\ (s < fresh w)%nat.

(** The mounted hook with a key, where the microphone is refused. *)
Definition denied_world (reason : string) : World :=
  initial (Some "key"%string) (Denied reason) 0 (fun _ => Pending) (fun _ => false).

(** The entry of the [catch] of [connect]. *)
Definition connection_failed_entry (reason : string) (w : World) : LogMessage :=
  mkLog system ("Connection Failed: " ++ reason) (wall_clock w).

(** The hook before its first [connect]: no ref is set and nothing is
    queued. *)
Definition idle (w : World) : Prop :=
  sessionPromiseRef w = None /\ inputSourceRef w = None /\
  processorRef w = None /\ inputAudioContextRef w = None /\
  outputAudioContextRef w = None /\ audioSourcesRef w = [].

(** One chunk playing, over a session promise that was rejected, or that is
    still pending. *)
Definition rejected_session : World :=
  Eval vm_compute in
    run [Connect; Open; Message (audio_chunk 0.5) 10]
      (initial (Some "key"%string) Granted 0
         (fun _ => Rejected "closed before open") (fun _ => false)).

Definition pending_session : World :=
  Eval vm_compute in
    run [Connect; Open; Message (audio_chunk 0.5) 10]
      (initial (Some "key"%string) Granted 0 (fun _ => Pending) (fun _ => false)).

(** The calls of a [disconnect] that runs to its end, in the order they are
    made. *)
Definition teardown_calls (w : World) : list Call :=
  match sessionPromiseRef w with Some p => [SessionClose p] | None => [] end
  ++ match inputSourceRef w with Some n => [NodeDisconnect n] | None => [] end
  ++ match processorRef w with Some n => [NodeDisconnect n] | None => [] end
  ++ match inputAudioContextRef w with Some c => [ContextClose c] | None => [] end
  ++ match outputAudioContextRef w with Some c => [ContextClose c] | None => [] end
  ++ map SourceStop (audioSourcesRef w).

(** The refs [disconnect] reads. *)
Definition refs_of (w : World) :=
  (sessionPromiseRef w, inputSourceRef w, processorRef w,
   inputAudioContextRef w, outputAudioContextRef w).

(** A message with a transcript, audio that fails to decode, and the
    interruption flag. *)
Definition garbled_interruption : LiveServerMessage :=
  mkMessage (Some "hello"%string) false (Some (DecodeError "odd length")) true.

End LiveAPI.

(** ** The PCM codec

    [createPcmBlob] and [decodeAudioData] live in [utils/audio], which is
    not part of the sources; the codec below follows section 4.1 of the
    spec.  Samples are rationals (every finite float is one, and scaling by
    [2^15] is exact on floats); bytes are integers from 0 to 255; the base64
    layer, a bijection on byte strings, is left out. *)
Module Pcm.
Section Codec.

(** Modelled from the spec: the rounding of a scaled sample to an integer,
    which the spec does not name; it is a parameter of the encoder. *)
Variable round : Q -> Z.

(** Modelled from the spec: clamping to the signed 16-bit range. *)
Definition clamp16 (v : Z) : Z := Z.max (-32768) (Z.min 32767 v).

(** Modelled from the spec: [encode] on one sample, "maps each sample
    linearly from [-1,1] to a signed 16-bit integer range, clamping
    out-of-range inputs"; the factor is [2^15], the step that the spec's
    error bound of [1/32768] names. *)
Definition quantize (x : Q) : Z := clamp16 (round (x * 32768)%Q).

(** Modelled from the spec: one integer as two bytes, "little-endian", in
    two's complement. *)
Definition bytes_of_int16 (v : Z) : list Z :=
  let u := v mod 65536 in [u mod 256; u / 256].

(** Modelled from the spec: two bytes read as a "little-endian signed
    16-bit" integer. *)
Definition int16_of_bytes (lo hi : Z) : Z :=
  let u := lo + 256 * hi in if u <? 32768 then u else u - 65536.

(** Modelled from the spec: [encode], the byte buffer of [createPcmBlob]. *)
Definition encode (samples : list Q) : list Z :=
  flat_map (fun x => bytes_of_int16 (quantize x)) samples.

(** Modelled from the spec: [decode], the samples of [decodeAudioData],
    each integer "converted back to floating-point [-1,1]" by the factor
    [2^15]; an odd number of bytes is a decode error ([None]). *)
Fixpoint decode (bytes : list Z) : option (list Q) :=
  match bytes with
  | [] => Some []
  | lo :: hi :: rest =>
      match decode rest with
      | Some samples => Some ((inject_Z (int16_of_bytes lo hi) / 32768)%Q :: samples)
      | None => None
      end
  | [_] => None
  end.

End Codec.
End Pcm.

(** One quantization step apart. *)
Definition within_step (x y : Q) : Prop := (Qabs (y - x) <= 1 # 32768)%Q.

Definition some_samples : list Q := [1; -1; 0; 1 # 2; 1 # 3; - (2 # 7)]%Q.

(** Sixty log entries, numbered by their timestamps. *)
Definition sixty : list LogMessage :=
  map (fun n => mkLog user "hello" (Z.of_nat n)) (seq 0 60).

(** ** The visualizer, [components/AudioPulse.tsx] *)

Module AudioPulse.

(** [const targetRadius = 50 + (volume * 100)] *)
Definition targetRadius (volume : float) : float := (50 + volume * 100)%float.

(** The radius of the core: [30 + (volume * 10)]. *)
Definition core_radius (volume : float) : float := (30 + volume * 10)%float.

(** The least opacity, the [0.1] of both [Math.max]. *)
#[warnings="-inexact-float"] Definition min_alpha : float := 0.1%float.

(** The opacity of the outer glow: [Math.max(0.1, 0.5 - volume)]. *)
Definition glow_alpha (volume : float) : float :=
  JS.Math_max min_alpha (0.5 - volume)%float.

(** The opacity of the ring: [Math.max(0.1, 0.3 - volume)]. *)
#[warnings="-inexact-float"] Definition ring_alpha (volume : float) : float :=
  JS.Math_max min_alpha (0.3 - volume)%float.

End AudioPulse.

(** ** The application, [App.tsx]

    [toggleVideo] and [toggleScreen] are asynchronous: each runs up to its
    [await], and from there on once the request is settled; whatever
    happens in between sees the state the first part left.  The two parts
    are separate steps here, and the requests that are not yet settled are
    counted.  The callbacks of the hook run as in [LiveAPI]. *)

Module App.

(** The state of [App]: its two flags, the [<video>] element behind
    [videoRef] and the stream attached to it, the hook, the toggles that
    wait at their [await], and of the browser the camera, the display
    capture and the streams whose tracks were stopped.  Streams are named
    by their identity. *)
Record State := mkState {
  videoActive : bool;
  screenActive : bool;
  videoRef : bool;
  srcObject : option nat;
  hook : LiveAPI.World;
  (* the toggles waiting at their await *)
  camera_requests : nat;
  display_requests : nat;
  (* the environment *)
  next_stream : nat;
  camera : LiveAPI.MediaAccess;
  display : LiveAPI.MediaAccess;
  stopped : list nat
}.

Definition set_videoActive (v : bool) (st : State) : State :=
  mkState v (screenActive st) (videoRef st) (srcObject st) (hook st)
    (camera_requests st) (display_requests st)
    (next_stream st) (camera st) (display st) (stopped st).

Definition set_screenActive (v : bool) (st : State) : State :=
  mkState (videoActive st) v (videoRef st) (srcObject st) (hook st)
    (camera_requests st) (display_requests st)
    (next_stream st) (camera st) (display st) (stopped st).

Definition set_srcObject (v : option nat) (st : State) : State :=
  mkState (videoActive st) (screenActive st) (videoRef st) v (hook st)
    (camera_requests st) (display_requests st)
    (next_stream st) (camera st) (display st) (stopped st).

Definition set_hook (v : LiveAPI.World) (st : State) : State :=
  mkState (videoActive st) (screenActive st) (videoRef st) (srcObject st) v
    (camera_requests st) (display_requests st)
    (next_stream st) (camera st) (display st) (stopped st).

Definition set_camera_requests (v : nat) (st : State) : State :=
  mkState (videoActive st) (screenActive st) (videoRef st) (srcObject st)
    (hook st) v (display_requests st)
    (next_stream st) (camera st) (display st) (stopped st).

Definition set_display_requests (v : nat) (st : State) : State :=
  mkState (videoActive st) (screenActive st) (videoRef st) (srcObject st)
    (hook st) (camera_requests st) v
    (next_stream st) (camera st) (display st) (stopped st).

Definition set_next_stream (v : nat) (st : State) : State :=
  mkState (videoActive st) (screenActive st) (videoRef st) (srcObject st)
    (hook st) (camera_requests st) (display_requests st)
    v (camera st) (display st) (stopped st).

Definition set_stopped (v : list nat) (st : State) : State :=
  mkState (videoActive st) (screenActive st) (videoRef st) (srcObject st)
    (hook st) (camera_requests st) (display_requests st)
    (next_stream st) (camera st) (display st) v.

(** [addLog({ role: 'system', text, timestamp: new Date() })] *)
Definition log_system (t : string) (st : State) : State :=
  set_hook (LiveAPI.logged system t (hook st)) st.

(** [stopMediaTracks]: stops every track of the attached stream and
    detaches it. *)
Definition stopMediaTracks (st : State) : State :=
  if videoRef st then
    match srcObject st with
    | Some stream => set_srcObject None (set_stopped (stopped st ++ [stream]) st)
    | None => st
    end
  else st.

(** What a toggle does with the stream it is granted:
    [if (videoRef.current) { srcObject = stream; setActive(true) }]. *)
Definition attach (activate : State -> State) (st : State) : State :=
  let stream := next_stream st in
  let st := set_next_stream (S stream) st in
  if videoRef st then activate (set_srcObject (Some stream) st) else st.

(** [toggleVideo] up to its [await]: it either turns the camera off and
    returns, or ends a running screen share and asks for the camera. *)
Definition toggleVideo (st : State) : State :=
  if videoActive st then set_videoActive false (stopMediaTracks st)
  else
    let st := if screenActive st
              then set_screenActive false (stopMediaTracks st) else st in
    set_camera_requests (S (camera_requests st)) st.

(** [toggleVideo] from its [await] on, with the outcome of [getUserMedia]:
    the rest of the [try], or the [catch]. *)
Definition toggleVideo_resumed (st : State) : State :=
  match camera st with
  | LiveAPI.Granted => attach (set_videoActive true) st
  | LiveAPI.Denied _ => log_system "Failed to access camera" st
  end.

(** A request for the camera is settled: the toggle that waits for it goes
    on. *)
Definition camera_settled (st : State) : State :=
  match camera_requests st with
  | O => st
  | S n => toggleVideo_resumed (set_camera_requests n st)
  end.

(** [toggleScreen] up to its [await]. *)
Definition toggleScreen (st : State) : State :=
  if screenActive st then set_screenActive false (stopMediaTracks st)
  else
    let st := if videoActive st
              then set_videoActive false (stopMediaTracks st) else st in
    set_display_requests (S (display_requests st)) st.

(** [toggleScreen] from its [await] on, with the outcome of
    [getDisplayMedia]. *)
Definition toggleScreen_resumed (st : State) : State :=
  match display st with
  | LiveAPI.Granted => attach (set_screenActive true) st
  | LiveAPI.Denied _ => log_system "Failed to access screen" st
  end.

Definition display_settled (st : State) : State :=
  match display_requests st with
  | O => st
  | S n => toggleScreen_resumed (set_display_requests n st)
  end.

(** [stream.getVideoTracks()[0].onended = () => setScreenActive(false)] *)
Definition screen_ended (st : State) : State := set_screenActive false st.

(** The callback of the streaming interval, which runs only while
    [connected && (videoActive || screenActive)]; [canvas] tells whether
    the canvas and its 2d context are there. *)
Definition video_tick (canvas : bool) (videoWidth videoHeight : Z) (st : State)
  : State :=
  if LiveAPI.connected (hook st) && (videoActive st || screenActive st) then
    if videoRef st && canvas && (0 <? videoWidth) && (0 <? videoHeight)
    then set_hook (LiveAPI.exec LiveAPI.sendVideoFrame (hook st)) st
    else st
  else st.

(** What can happen to the application: the three buttons
    ([onClick={connected ? disconnect : connect}], and the two toggles with
    their [disabled] attributes), a request of a toggle being settled, the
    shared screen ending, a tick of the streaming interval, and a callback
    of the hook. *)
Inductive Event :=
| ConnectButton
| VideoButton
| ScreenButton
| CameraSettled
| DisplaySettled
| ScreenEnded
| VideoTick (canvas : bool) (videoWidth videoHeight : Z)
| Hook (e : LiveAPI.Event).

Definition handle (e : Event) (st : State) : State :=
  match e with
  | ConnectButton =>
      set_hook (LiveAPI.exec (if LiveAPI.connected (hook st)
                              then LiveAPI.disconnect else LiveAPI.connect)
                             (hook st)) st
  | VideoButton =>
      if negb (LiveAPI.connected (hook st)) && negb (videoActive st)
      then st else toggleVideo st
  | ScreenButton =>
      if negb (LiveAPI.connected (hook st)) && negb (screenActive st)
      then st else toggleScreen st
  | CameraSettled => camera_settled st
  | DisplaySettled => display_settled st
  | ScreenEnded => screen_ended st
  | VideoTick canvas videoWidth videoHeight =>
      video_tick canvas videoWidth videoHeight st
  | Hook e => set_hook (LiveAPI.exec (LiveAPI.handle e) (hook st)) st
  end.

Definition run (events : list Event) (st : State) : State :=
  fold_left (fun st e => handle e st) events st.

(** [App] as it mounts over a hook world. *)
Definition initial (w : LiveAPI.World) (cam disp : LiveAPI.MediaAccess) : State :=
  mkState false false true None w 0%nat 0%nat 0%nat cam disp [].

(** A press of one of the two toggle buttons. *)
Definition is_toggle (e : Event) : bool :=
  match e with
  | VideoButton | ScreenButton => true
  | _ => false
  end.

(** A toggle waits at its [await]. *)
Definition waiting (st : State) : bool :=
  negb ((camera_requests st =? 0)%nat && (display_requests st =? 0)%nat).

(** No toggle button is pressed while an earlier toggle still waits for its
    request: the toggles do not overlap. *)
Fixpoint one_at_a_time (events : list Event) (st : State) : bool :=
  match events with
  | [] => true
  | e :: rest =>
      negb (is_toggle e && waiting st) && one_at_a_time rest (handle e st)
  end.

End App.

(** At most one of the two feeds is active, at most one toggle waits, and
    the feed a waiting toggle is about to replace is off. *)
Definition exclusive (st : App.State) : Prop :=
  App.videoActive st && App.screenActive st = false /\
  (App.camera_requests st + App.display_requests st <= 1)%nat /\
  (App.camera_requests st <> 0%nat -> App.screenActive st = false) /\
  (App.display_requests st <> 0%nat -> App.videoActive st = false).

(** What the flags promise about the [<video>] element: the element is
    mounted, an active feed has a stream attached, and the attached stream
    is one whose tracks were not stopped. *)
Definition feed_attached (st : App.State) : Prop :=
  App.videoRef st = true /\
  (App.videoActive st || App.screenActive st = true -> App.srcObject st <> None) /\
  (forall s, In s (App.stopped st) -> (s < App.next_stream st)%nat) /\
  (forall s, App.srcObject st = Some s ->
             (s < App.next_stream st)%nat /\ ~ In s (App.stopped st)).

(** A screen share of stream 0 over a connected session, with the camera
    blocked. *)
Definition sharing_screen : App.State :=
  Eval vm_compute in
    App.run [App.ScreenButton; App.DisplaySettled]
      (App.initial LiveAPI.connected_world (LiveAPI.Denied "NotAllowedError")
         LiveAPI.Granted).

(** The camera on over a session that plays one chunk. *)
Definition camera_on : App.State :=
  Eval vm_compute in
    App.run [App.VideoButton; App.CameraSettled]
      (App.initial LiveAPI.playing LiveAPI.Granted
         (LiveAPI.Denied "NotAllowedError")).

(** The camera and the screen share switched on and off in turn, each
    request settled before the next press. *)
Definition taking_turns : list App.Event :=
  [App.VideoButton; App.CameraSettled; App.VideoTick true 640 480;
   App.ScreenButton; App.DisplaySettled; App.ScreenEnded;
   App.VideoButton; App.CameraSettled].

(** Both buttons pressed before either request is settled. *)
Definition overlapping : list App.Event :=
  [App.VideoButton; App.ScreenButton; App.CameraSettled; App.DisplaySettled].

(** Everything granted, over a connected session. *)
Definition all_granted : App.State :=
  App.initial LiveAPI.connected_world LiveAPI.Granted LiveAPI.Granted.

(** * Facts about binary64 arithmetic

    The primitive operations are specified by [SpecFloat]; the facts below
    are read off that specification. *)

(** ** Comparison *)

Section Comparison.

Lemma Prim2SF_zero : Prim2SF 0 = S754_zero false.
Proof. reflexivity. Qed.

Lemma SFcompare_refl x : x <> S754_nan -> SFcompare x x = Some Eq.
Proof.
  destruct x as [s|s| |s m e]; simpl; try congruence; intros _.
  - destruct s; reflexivity.
  - rewrite Z.compare_refl.
    change (Pos.compare_cont Eq m m) with (Pos.compare m m).
    rewrite Pos.compare_refl. destruct s; reflexivity.
Qed.

Lemma SFcompare_antisym x y :
  SFcompare y x = option_map CompOpp (SFcompare x y).
Proof.
  destruct x as [sx|sx| |sx mx ex], y as [sy|sy| |sy my ey]; simpl;
    try reflexivity;
    try (destruct sx; reflexivity); try (destruct sy; reflexivity);
    try (destruct sx, sy; reflexivity).
  change (Pos.compare_cont Eq my mx) with (Pos.compare my mx).
  change (Pos.compare_cont Eq mx my) with (Pos.compare mx my).
  rewrite (Z.compare_antisym ex ey), (Pos.compare_antisym mx my).
  destruct sx, sy; simpl; try reflexivity;
    destruct (ex ?= ey); simpl; try reflexivity;
    destruct (mx ?= my)%positive; reflexivity.
Qed.

Lemma is_nan_spec x : is_nan x = true <-> Prim2SF x = S754_nan.
Proof.
  unfold is_nan. rewrite FloatAxioms.eqb_spec. unfold SFeqb.
  destruct (Prim2SF x) eqn:E.
  1,2,4: rewrite SFcompare_refl by discriminate; simpl; split; discriminate.
  simpl. split; reflexivity.
Qed.

Lemma is_nan_false x : is_nan x = false <-> Prim2SF x <> S754_nan.
Proof.
  rewrite <- is_nan_spec. destruct (is_nan x); split; congruence.
Qed.

Lemma leb_zero x : (0 <=? x)%float = SFnonneg (Prim2SF x).
Proof.
  rewrite FloatAxioms.leb_spec, Prim2SF_zero. unfold SFleb.
  destruct (Prim2SF x) as [s|s| |s m e]; simpl; try reflexivity;
    destruct s; reflexivity.
Qed.

Lemma SFnonneg_not_nan x : SFnonneg x = true -> x <> S754_nan.
Proof. destruct x; simpl; congruence. Qed.

Lemma nonneg_not_nan x : (0 <=? x)%float = true -> is_nan x = false.
Proof.
  rewrite leb_zero. intros H. apply is_nan_false. now apply SFnonneg_not_nan.
Qed.

Lemma SFsigned_nonneg x : SFsigned false x -> SFnonneg x = true.
Proof. destruct x; simpl; intros H; try contradiction; subst; reflexivity. Qed.

End Comparison.

(** ** Rounding never yields NaN and keeps the sign *)

Section Rounding.

Lemma shr_1_nonneg mrs : 0 <= shr_m mrs -> 0 <= shr_m (shr_1 mrs).
Proof.
  destruct mrs as [m r s]; simpl.
  destruct m as [|p|p]; simpl; try lia.
  - intros _. destruct p; simpl; lia.
Qed.

Lemma iter_shr_1_nonneg p : forall mrs,
  0 <= shr_m mrs -> 0 <= shr_m (SpecFloat.iter_pos shr_1 p mrs).
Proof.
  induction p; simpl; intros mrs H.
  - apply IHp, IHp, shr_1_nonneg, H.
  - apply IHp, IHp, H.
  - apply shr_1_nonneg, H.
Qed.

Lemma shr_nonneg mrs e n : 0 <= shr_m mrs -> 0 <= shr_m (fst (shr mrs e n)).
Proof.
  intros H. destruct n; simpl; auto. now apply iter_shr_1_nonneg.
Qed.

Lemma shr_record_of_loc_m m l : shr_m (shr_record_of_loc m l) = m.
Proof. destruct l as [|[]]; reflexivity. Qed.

Lemma shr_fexp_nonneg m e l :
  0 <= m -> 0 <= shr_m (fst (shr_fexp prec emax m e l)).
Proof.
  intros H. unfold shr_fexp. apply shr_nonneg. now rewrite shr_record_of_loc_m.
Qed.

Lemma round_nearest_even_nonneg m l : 0 <= m -> 0 <= round_nearest_even m l.
Proof.
  intros H. destruct l as [|[]]; simpl; try lia. destruct (Z.even m); lia.
Qed.

Lemma binary_round_aux_signed sx mx ex lx :
  0 <= mx -> SFsigned sx (binary_round_aux prec emax sx mx ex lx).
Proof.
  intros H. unfold binary_round_aux.
  pose proof (shr_fexp_nonneg mx ex lx H) as H1.
  destruct (shr_fexp prec emax mx ex lx) as [mrs' e'] eqn:E1. simpl in H1.
  pose proof (shr_fexp_nonneg _ e' loc_Exact
                (round_nearest_even_nonneg _ (loc_of_shr_record mrs') H1)) as H2.
  destruct (shr_fexp prec emax _ e' loc_Exact) as [mrs'' e''] eqn:E2.
  simpl in H2.
  destruct (shr_m mrs'') as [|m|m]; simpl.
  - reflexivity.
  - match goal with |- context [if ?c then _ else _] => destruct c end; reflexivity.
  - lia.
Qed.

Lemma binary_round_signed sx mx ex :
  SFsigned sx (binary_round prec emax sx mx ex).
Proof.
  unfold binary_round.
  destruct (shl_align mx ex _) as [mz ez].
  apply binary_round_aux_signed. lia.
Qed.

End Rounding.

(** ** Signs of the operations *)

Section Operations.

Lemma SFmul_self_nonneg x : x <> S754_nan -> SFnonneg (SFmul prec emax x x) = true.
Proof.
  destruct x as [s|s| |s m e]; simpl; intros H; try congruence.
  - now rewrite xorb_nilpotent.
  - rewrite xorb_nilpotent.
    apply SFsigned_nonneg, binary_round_aux_signed. lia.
Qed.

Lemma SFadd_nonneg x y :
  SFnonneg x = true -> SFnonneg y = true -> SFnonneg (SFadd prec emax x y) = true.
Proof.
  destruct x as [sx|sx| |sx mx ex], y as [sy|sy| |sy my ey]; simpl;
    intros Hx Hy; try congruence;
    try (destruct sx; simpl in *; try congruence);
    try (destruct sy; simpl in *; try congruence); try reflexivity.
  apply SFsigned_nonneg. apply binary_round_signed.
Qed.

Lemma SFmul_nonneg x sy my ey :
  SFnonneg x = true -> sy = false ->
  SFnonneg (SFmul prec emax x (S754_finite sy my ey)) = true.
Proof.
  intros Hx ->. destruct x as [sx|sx| |sx mx ex]; simpl in *; try congruence.
  - now rewrite xorb_false_r.
  - rewrite xorb_false_r. destruct sx; simpl in Hx; try congruence.
    apply SFsigned_nonneg, binary_round_aux_signed. lia.
Qed.

Lemma SFdiv_nonneg x my ey :
  SFnonneg x = true ->
  SFnonneg (SFdiv prec emax x (S754_finite false my ey)) = true.
Proof.
  intros Hx. destruct x as [sx|sx| |sx mx ex]; simpl in *; try congruence.
  - now rewrite xorb_false_r.
  - destruct sx; simpl in Hx; try congruence.
    unfold SFdiv_core_binary.
    set (m' := match _ with Z0 => Z.pos mx | Z.pos _ => _ | Z.neg _ => 0 end).
    assert (Hm : 0 <= m').
    { subst m'. destruct (_ - _ - _); try lia. apply Z.shiftl_nonneg. lia. }
    pose proof (Z_div_mod m' (Z.pos my) ltac:(lia)) as Hd.
    destruct (Z.div_eucl m' (Z.pos my)) as [q r].
    apply SFsigned_nonneg, binary_round_aux_signed. nia.
Qed.

Lemma SFsqrt_nonneg x : SFnonneg x = true -> SFnonneg (SFsqrt prec emax x) = true.
Proof.
  intros Hx. destruct x as [sx|sx| |sx mx ex]; simpl in *; try congruence.
  - destruct sx; simpl in *; congruence.
  - destruct sx; simpl in Hx; try congruence.
    unfold SFsqrt_core_binary.
    set (m' := match _ with Z0 => Z.pos mx | Z.pos _ => _ | Z.neg _ => 0 end).
    assert (Hm : 0 <= m').
    { subst m'. destruct (_ - _); try lia. apply Z.shiftl_nonneg. lia. }
    pose proof (Z.sqrtrem_spec m' Hm) as Hs.
    destruct (Z.sqrtrem m') as [q r].
    apply SFsigned_nonneg, binary_round_aux_signed. lia.
Qed.

End Operations.

(** ** The order on numbers *)

Section Order.

Lemma SFcompare_none x y :
  x <> S754_nan -> y <> S754_nan -> SFcompare x y <> None.
Proof.
  destruct x, y; simpl; congruence.
Qed.

Lemma SFleb_refl x : x <> S754_nan -> SFleb x x = true.
Proof. intros H. unfold SFleb. now rewrite SFcompare_refl. Qed.

Lemma SFltb_leb x y : SFltb x y = true -> SFleb x y = true.
Proof. unfold SFltb, SFleb. destruct (SFcompare x y) as [[]|]; congruence. Qed.

Lemma SFltb_false_leb x y :
  x <> S754_nan -> y <> S754_nan -> SFltb x y = false -> SFleb y x = true.
Proof.
  intros Hx Hy. unfold SFltb, SFleb. rewrite (SFcompare_antisym x y).
  pose proof (SFcompare_none x y Hx Hy).
  destruct (SFcompare x y) as [[]|]; simpl; congruence.
Qed.

Lemma SFleb_trans x y z :
  SFleb x y = true -> SFleb y z = true -> SFleb x z = true.
Proof.
  unfold SFleb.
  destruct x as [sx|sx| |sx mx ex], y as [sy|sy| |sy my ey],
           z as [sz|sz| |sz mz ez]; simpl;
    try discriminate; try reflexivity;
    try (destruct sx); try (destruct sy); try (destruct sz);
    try discriminate; try reflexivity;
    change (Pos.compare_cont Eq) with Pos.compare;
    repeat match goal with
      | |- context [Z.compare ?a ?b] => destruct (Z.compare_spec a b)
      | |- context [Pos.compare ?a ?b] => destruct (Pos.compare_spec a b)
      end; simpl; try discriminate; try reflexivity; subst; intros; lia.
Qed.

End Order.

Section PrimOrder.
Local Open Scope float_scope.

Lemma leb_refl a : is_nan a = false -> (a <=? a) = true.
Proof.
  intros H. rewrite FloatAxioms.leb_spec. apply SFleb_refl. now apply is_nan_false.
Qed.

Lemma ltb_leb a b : (a <? b) = true -> (a <=? b) = true.
Proof.
  rewrite FloatAxioms.ltb_spec, FloatAxioms.leb_spec. apply SFltb_leb.
Qed.

Lemma ltb_false_leb a b :
  is_nan a = false -> is_nan b = false -> (a <? b) = false -> (b <=? a) = true.
Proof.
  rewrite FloatAxioms.ltb_spec, FloatAxioms.leb_spec, !is_nan_false.
  apply SFltb_false_leb.
Qed.

Lemma leb_trans a b c : (a <=? b) = true -> (b <=? c) = true -> (a <=? c) = true.
Proof. rewrite !FloatAxioms.leb_spec. apply SFleb_trans. Qed.

End PrimOrder.

(** ** Digits and shifts *)

Section Digits.

Lemma digits2_pos_size p : digits2_pos p = Pos.size p.
Proof. induction p; simpl; congruence. Qed.

Lemma digits2_log2 p : Z.pos (digits2_pos p) = Z.log2 (Z.pos p) + 1.
Proof.
  rewrite digits2_pos_size. destruct p; simpl; try reflexivity;
    now rewrite Pos2Z.inj_succ.
Qed.

Lemma digits2_bounds p :
  2 ^ (Z.pos (digits2_pos p) - 1) <= Z.pos p < 2 ^ Z.pos (digits2_pos p).
Proof.
  rewrite digits2_log2.
  replace (Z.log2 (Z.pos p) + 1 - 1) with (Z.log2 (Z.pos p)) by lia.
  replace (Z.log2 (Z.pos p) + 1) with (Z.succ (Z.log2 (Z.pos p))) by lia.
  apply Z.log2_spec. lia.
Qed.

Lemma digits2_shift p k :
  0 <= k -> forall q, Z.pos q = Z.pos p * 2 ^ k ->
  Z.pos (digits2_pos q) = Z.pos (digits2_pos p) + k.
Proof.
  intros Hk q Hq. rewrite !digits2_log2, Hq.
  rewrite Z.log2_mul_pow2 by lia. lia.
Qed.

Lemma iter_xO p d : Z.pos (Pos.iter xO p d) = Z.pos p * 2 ^ Z.pos d.
Proof.
  induction d using Pos.peano_ind.
  - simpl. lia.
  - rewrite Pos.iter_succ, Pos2Z.inj_succ, Z.pow_succ_r by lia.
    rewrite (Pos2Z.inj_xO (Pos.iter xO p d)), IHd. lia.
Qed.

Lemma shl_align_spec mx ex ex' :
  let '(m, e) := shl_align mx ex ex' in
  e = Z.min ex ex' /\ Z.pos m = Z.pos mx * 2 ^ (ex - e).
Proof.
  unfold shl_align. destruct (ex' - ex) as [|d|d] eqn:E.
  - split; [lia|]. rewrite Z.sub_diag. simpl. lia.
  - split; [lia|]. rewrite Z.sub_diag. simpl. lia.
  - split; [lia|]. rewrite iter_xO. f_equal. f_equal. lia.
Qed.

Lemma fexp_mono a b : a <= b -> fexp prec emax a <= fexp prec emax b.
Proof. unfold fexp. lia. Qed.

Lemma fexp_ge_emin a : emin <= fexp prec emax a.
Proof. unfold fexp. lia. Qed.

Lemma fexp_above a e : emin <= e -> e < fexp prec emax a -> fexp prec emax a = a - prec.
Proof. unfold fexp. lia. Qed.

End Digits.

Section Shifts.

Lemma shr_1_div2 mrs : 0 <= shr_m mrs -> shr_m (shr_1 mrs) = shr_m mrs / 2.
Proof.
  destruct mrs as [m r s]; simpl. intros H.
  destruct m as [|p|p]; try lia.
  - reflexivity.
  - destruct p; simpl shr_m.
    + rewrite (Pos2Z.inj_xI p). apply Z.div_unique with 1; lia.
    + rewrite (Pos2Z.inj_xO p). apply Z.div_unique with 0; lia.
    + reflexivity.
Qed.

Lemma pow2_xI p : 2 ^ Z.pos p~1 = 2 * (2 ^ Z.pos p * 2 ^ Z.pos p).
Proof.
  rewrite (Pos2Z.inj_xI p).
  replace (2 * Z.pos p + 1) with (Z.pos p + Z.pos p + 1) by lia.
  rewrite !Z.pow_add_r by lia. change (2 ^ 1) with 2. ring.
Qed.

Lemma pow2_xO p : 2 ^ Z.pos p~0 = 2 ^ Z.pos p * 2 ^ Z.pos p.
Proof.
  rewrite (Pos2Z.inj_xO p).
  replace (2 * Z.pos p) with (Z.pos p + Z.pos p) by lia.
  now rewrite !Z.pow_add_r by lia.
Qed.

Lemma iter_shr_1_div p : forall mrs,
  0 <= shr_m mrs ->
  shr_m (SpecFloat.iter_pos shr_1 p mrs) = shr_m mrs / 2 ^ Z.pos p.
Proof.
  induction p; intros mrs H; simpl SpecFloat.iter_pos.
  - assert (0 < 2 ^ Z.pos p) by (apply Z.pow_pos_nonneg; lia).
    rewrite IHp, IHp, shr_1_div2; auto using shr_1_nonneg, iter_shr_1_nonneg.
    rewrite !Z.div_div by lia. now rewrite pow2_xI.
  - assert (0 < 2 ^ Z.pos p) by (apply Z.pow_pos_nonneg; lia).
    rewrite IHp, IHp; auto using iter_shr_1_nonneg.
    rewrite !Z.div_div by lia. now rewrite pow2_xO.
  - now rewrite shr_1_div2.
Qed.

Lemma shr_spec mrs e n :
  0 <= shr_m mrs ->
  let '(mrs', e') := shr mrs e n in
  e' = e + Z.max n 0 /\ shr_m mrs' = shr_m mrs / 2 ^ Z.max n 0.
Proof.
  intros H. unfold shr. destruct n as [|p|p].
  - split; [lia|]. simpl. now rewrite Z.div_1_r.
  - split; [lia|]. rewrite iter_shr_1_div by assumption. f_equal.
  - split; [lia|]. simpl. now rewrite Z.div_1_r.
Qed.

Lemma shr_fexp_spec m e l :
  0 <= m ->
  let n := Z.max (fexp prec emax (Zdigits2 m + e) - e) 0 in
  let '(mrs', e') := shr_fexp prec emax m e l in
  e' = e + n /\ shr_m mrs' = m / 2 ^ n.
Proof.
  intros H n. unfold shr_fexp.
  pose proof (shr_spec (shr_record_of_loc m l) e
                (fexp prec emax (Zdigits2 m + e) - e)) as Hs.
  rewrite shr_record_of_loc_m in Hs. specialize (Hs H).
  destruct (shr _ _ _) as [mrs' e']. exact Hs.
Qed.

Lemma round_nearest_even_ge m l : m <= round_nearest_even m l.
Proof.
  destruct l as [|[]]; simpl; try lia. destruct (Z.even m); lia.
Qed.

End Shifts.

(** ** Adding a number that is not negative does not decrease *)

Section Monotone.

Lemma emin_val : emin = -1074.
Proof. reflexivity. Qed.

Lemma prec_val : prec = 53.
Proof. reflexivity. Qed.

Lemma shift_keeps_positive m e :
  0 < m -> emin <= e ->
  0 < m / 2 ^ Z.max (fexp prec emax (Zdigits2 m + e) - e) 0.
Proof.
  intros Hm He. destruct m as [|p|p]; try lia. simpl Zdigits2.
  destruct (Z.le_gt_cases (fexp prec emax (Z.pos (digits2_pos p) + e) - e) 0) as [L|G].
  - rewrite Z.max_r by lia. simpl. rewrite Z.div_1_r. lia.
  - rewrite Z.max_l by lia.
    assert (F : fexp prec emax (Z.pos (digits2_pos p) + e)
                = Z.pos (digits2_pos p) + e - prec)
      by (apply fexp_above with e; lia).
    rewrite F in *. pose proof prec_val as P.
    pose proof (digits2_bounds p) as [B _].
    apply Z.div_str_pos. split.
    + apply Z.pow_pos_nonneg; lia.
    + eapply Z.le_trans; [|exact B].
      apply Z.pow_le_mono_r; lia.
Qed.

Lemma SFleb_finite_pos m1 e1 m e :
  e1 < e \/ (e1 = e /\ Z.pos m1 <= Z.pos m) ->
  SFleb (S754_finite false m1 e1) (S754_finite false m e) = true.
Proof.
  intros H. unfold SFleb, SFcompare.
  change (Pos.compare_cont Eq m1 m) with (Pos.compare m1 m).
  destruct (Z.compare_spec e1 e); try reflexivity; try lia.
  destruct (Pos.compare_spec m1 m); try reflexivity; lia.
Qed.

Lemma binary_round_aux_ge m1 e1 mx ex lx :
  canonical_mantissa prec emax m1 e1 = true ->
  ex <= e1 ->
  Z.pos m1 * 2 ^ (e1 - ex) <= mx ->
  SFleb (S754_finite false m1 e1)
        (binary_round_aux prec emax false mx ex lx) = true.
Proof.
  intros Hc Hex Hm.
  unfold canonical_mantissa in Hc. apply Z.eqb_eq in Hc.
  assert (Hpow : 0 < 2 ^ (e1 - ex)) by (apply Z.pow_pos_nonneg; lia).
  assert (Hmx : 0 < mx) by nia.
  assert (Hemin : emin <= e1) by (rewrite <- Hc; apply fexp_ge_emin).
  destruct mx as [|px|px]; try lia.
  (* the exponent chosen for [px] is at least [e1] *)
  assert (Hdig : Z.pos (digits2_pos m1) + (e1 - ex) <= Z.pos (digits2_pos px)).
  { rewrite !digits2_log2.
    pose proof (Z.log2_le_mono _ _ Hm) as L.
    rewrite Z.log2_mul_pow2 in L by lia. lia. }
  assert (Hfexp : e1 <= fexp prec emax (Z.pos (digits2_pos px) + ex)).
  { rewrite <- Hc at 1. apply fexp_mono. lia. }
  unfold binary_round_aux.
  pose proof (shr_fexp_spec (Z.pos px) ex lx ltac:(lia)) as H1.
  destruct (shr_fexp prec emax (Z.pos px) ex lx) as [mrs' e'].
  simpl Zdigits2 in H1. rewrite Z.max_l in H1 by lia.
  destruct H1 as [He' Hq].
  assert (Hq1 : 0 < shr_m mrs' /\ (e1 < e' \/ (e1 = e' /\ Z.pos m1 <= shr_m mrs'))).
  { destruct (Z.eq_dec e1 e') as [E|N].
    - assert (Z.pos m1 <= shr_m mrs').
      { rewrite Hq. apply Z.div_le_lower_bound.
        - apply Z.pow_pos_nonneg; lia.
        - replace (fexp prec emax (Z.pos (digits2_pos px) + ex) - ex)
            with (e1 - ex) by lia. lia. }
      split; [lia|]. right. split; [exact E|assumption].
    - assert (e1 < e') by lia. split; [|now left].
      rewrite Hq.
      assert (F : fexp prec emax (Z.pos (digits2_pos px) + ex)
                  = Z.pos (digits2_pos px) + ex - prec)
        by (apply fexp_above with e1; lia).
      rewrite F in *. pose proof prec_val as P.
      pose proof (digits2_bounds px) as [B _].
      apply Z.div_str_pos. split.
      + apply Z.pow_pos_nonneg; lia.
      + eapply Z.le_trans; [|exact B].
        apply Z.pow_le_mono_r; lia. }
  destruct Hq1 as [Hqpos Hcmp].
  set (mx' := round_nearest_even (shr_m mrs') (loc_of_shr_record mrs')).
  assert (Hmx' : shr_m mrs' <= mx') by apply round_nearest_even_ge.
  pose proof (shr_fexp_spec mx' e' loc_Exact ltac:(lia)) as H2.
  pose proof (shift_keeps_positive mx' e' ltac:(lia) ltac:(lia)) as Hpos2.
  destruct (shr_fexp prec emax mx' e' loc_Exact) as [mrs'' e''].
  destruct H2 as [He'' Hm''].
  rewrite <- Hm'' in Hpos2.
  assert (Hfin : e1 < e'' \/ (e1 = e'' /\ Z.pos m1 <= shr_m mrs'')).
  { destruct (Z.le_gt_cases (fexp prec emax (Zdigits2 mx' + e') - e') 0) as [L|G].
    - rewrite Z.max_r in He'', Hm'' by lia.
      change (2 ^ 0) with 1 in Hm''. rewrite Z.div_1_r in Hm''.
      destruct Hcmp as [?|[? ?]]; [left; lia|right; split; lia].
    - rewrite Z.max_l in He'' by lia. left. lia. }
  destruct (shr_m mrs'') as [|m|m]; try lia.
  destruct (e'' <=? emax - prec).
  - now apply SFleb_finite_pos.
  - reflexivity.
Qed.

Lemma SFadd_ge_l x y :
  valid_binary x = true ->
  SFnonneg x = true -> SFnonneg y = true ->
  SFleb x (SFadd prec emax x y) = true.
Proof.
  intros Hv Hx Hy.
  destruct x as [sx|sx| |sx mx ex]; simpl in Hx; try discriminate.
  - (* x = 0 *)
    destruct y as [sy|sy| |sy my ey]; simpl in Hy; try discriminate.
    + simpl. destruct sx, sy; reflexivity.
    + destruct sy; try discriminate. reflexivity.
    + destruct sy; try discriminate. reflexivity.
  - (* x = +oo *)
    destruct sx; try discriminate.
    destruct y as [sy|sy| |sy my ey]; simpl in Hy; try discriminate;
      try (destruct sy; try discriminate); reflexivity.
  - destruct sx; try discriminate.
    destruct y as [sy|sy| |sy my ey]; simpl in Hy; try discriminate.
    + simpl SFadd. apply SFleb_finite_pos. right. split; lia.
    + destruct sy; try discriminate. reflexivity.
    + destruct sy; try discriminate.
      simpl in Hv. unfold bounded in Hv. apply andb_prop in Hv as [Hc _].
      unfold SFadd.
      pose proof (shl_align_spec mx ex (Z.min ex ey)) as A1.
      pose proof (shl_align_spec my ey (Z.min ex ey)) as A2.
      destruct (shl_align mx ex (Z.min ex ey)) as [m1' e1'].
      destruct (shl_align my ey (Z.min ex ey)) as [m2' e2'].
      destruct A1 as [E1 M1], A2 as [E2 M2].
      cbn [fst cond_Zopp]. change (Z.pos m1' + Z.pos m2') with (Z.pos (m1' + m2')).
      unfold binary_normalize, binary_round.
      pose proof (shl_align_spec (m1' + m2') (Z.min ex ey)
                    (fexp prec emax (Z.pos (digits2_pos (m1' + m2')) + Z.min ex ey))) as A3.
      destruct (shl_align (m1' + m2') (Z.min ex ey) _) as [mz ez].
      destruct A3 as [E3 M3].
      apply binary_round_aux_ge; try assumption; try lia.
      rewrite M3, Pos2Z.inj_add, M1.
      replace (ex - ez) with ((ex - e1') + (Z.min ex ey - ez)) by lia.
      rewrite Z.pow_add_r by lia.
      assert (0 < 2 ^ (Z.min ex ey - ez)) by (apply Z.pow_pos_nonneg; lia).
      assert (0 < 2 ^ (ex - e1')) by (apply Z.pow_pos_nonneg; lia).
      nia.
Qed.

End Monotone.

(** ** Array lengths, and the primitive operations *)

Section Conversion.

Lemma binary_round_aux_canonical s m e :
  canonical_mantissa prec emax m e = true -> e <= emax - prec ->
  binary_round_aux prec emax s (Z.pos m) e loc_Exact = S754_finite s m e.
Proof.
  intros Hc He. unfold canonical_mantissa in Hc. apply Z.eqb_eq in Hc.
  unfold binary_round_aux, shr_fexp. simpl Zdigits2.
  rewrite Hc, Z.sub_diag. cbn [shr shr_record_of_loc shr_m loc_of_shr_record round_nearest_even Zdigits2].
  rewrite Hc, Z.sub_diag. cbn [shr shr_record_of_loc shr_m].
  apply Z.leb_le in He. now rewrite He.
Qed.

Lemma binary_normalize_small n :
  0 < n < 2 ^ 53 ->
  exists m e, binary_normalize prec emax n 0 false = S754_finite false m e.
Proof.
  intros [Hn Hlt]. destruct n as [|p|p]; try lia.
  unfold binary_normalize, binary_round.
  pose proof (digits2_bounds p) as [B _].
  assert (Hd : Z.pos (digits2_pos p) <= 53).
  { destruct (Z.le_gt_cases (Z.pos (digits2_pos p)) 53) as [L|G]; [exact L|].
    assert (2 ^ 53 <= 2 ^ (Z.pos (digits2_pos p) - 1))
      by (apply Z.pow_le_mono_r; lia).
    lia. }
  assert (F : fexp prec emax (Z.pos (digits2_pos p) + 0)
              = Z.pos (digits2_pos p) - 53).
  { unfold fexp. rewrite emin_val, prec_val. lia. }
  pose proof (shl_align_spec p 0 (fexp prec emax (Z.pos (digits2_pos p) + 0))) as A.
  destruct (shl_align p 0 _) as [mz ez]. destruct A as [E M].
  rewrite F in E.
  exists mz, ez. apply binary_round_aux_canonical.
  - unfold canonical_mantissa. apply Z.eqb_eq.
    rewrite (digits2_shift p (0 - ez)) by (lia || exact M).
    unfold fexp. rewrite emin_val, prec_val. lia.
  - change (emax - prec) with 971. lia.
Qed.

Lemma length_number_finite {A} (l : list A) :
  0 < Z.of_nat (List.length l) < 2 ^ 53 ->
  exists m e, Prim2SF (JS.length_number l) = S754_finite false m e.
Proof.
  intros H. unfold JS.length_number.
  rewrite FloatAxioms.of_uint63_spec, Uint63.of_Z_spec.
  rewrite Z.mod_small.
  - now apply binary_normalize_small.
  - change wB with (2 ^ 63). split; [lia|].
    apply Z.lt_trans with (2 ^ 53); [lia|reflexivity].
Qed.

End Conversion.

Section PrimFacts.
Local Open Scope float_scope.

Lemma add_nonneg a b :
  (0 <=? a) = true -> (0 <=? b) = true -> (0 <=? a + b) = true.
Proof. rewrite !leb_zero, FloatAxioms.add_spec. apply SFadd_nonneg. Qed.

Lemma add_ge_l a b :
  (0 <=? a) = true -> (0 <=? b) = true -> (a <=? a + b) = true.
Proof.
  rewrite !leb_zero, FloatAxioms.leb_spec, FloatAxioms.add_spec.
  apply SFadd_ge_l, Prim2SF_valid.
Qed.

Lemma mul_self_nonneg x : is_nan x = false -> (0 <=? x * x) = true.
Proof.
  rewrite is_nan_false, leb_zero, FloatAxioms.mul_spec. apply SFmul_self_nonneg.
Qed.

Lemma mul_five_nonneg x : (0 <=? x) = true -> (0 <=? x * 5) = true.
Proof.
  rewrite !leb_zero, FloatAxioms.mul_spec. intros H.
  change (Prim2SF 5) with (S754_finite false 5629499534213120 (-50)).
  now apply SFmul_nonneg.
Qed.

Lemma sqrt_nonneg x : (0 <=? x) = true -> (0 <=? PrimFloat.sqrt x) = true.
Proof. rewrite !leb_zero, FloatAxioms.sqrt_spec. apply SFsqrt_nonneg. Qed.

Lemma div_nonneg x y m e :
  Prim2SF y = S754_finite false m e ->
  (0 <=? x) = true -> (0 <=? x / y) = true.
Proof.
  intros Hy. rewrite !leb_zero, FloatAxioms.div_spec, Hy. apply SFdiv_nonneg.
Qed.

Lemma Math_max_cases a b :
  is_nan a = false -> is_nan b = false ->
  JS.Math_max a b = a \/ JS.Math_max a b = b.
Proof.
  intros Ha Hb. unfold JS.Math_max. rewrite Ha, Hb. simpl.
  destruct (a <? b); [now right|].
  destruct (b <? a); [now left|].
  destruct (get_sign a); [now right|now left].
Qed.

Lemma Math_max_ge_r a b :
  is_nan a = false -> is_nan b = false -> (b <=? JS.Math_max a b) = true.
Proof.
  intros Ha Hb. unfold JS.Math_max. rewrite Ha, Hb. simpl.
  destruct (a <? b) eqn:L1; [now apply leb_refl|].
  destruct (b <? a) eqn:L2; [now apply ltb_leb|].
  destruct (get_sign a); [now apply leb_refl|now apply ltb_false_leb].
Qed.

Lemma Math_max_ge_l a b :
  is_nan a = false -> is_nan b = false -> (a <=? JS.Math_max a b) = true.
Proof.
  intros Ha Hb. unfold JS.Math_max. rewrite Ha, Hb. simpl.
  destruct (a <? b) eqn:L1; [now apply ltb_leb|].
  destruct (b <? a) eqn:L2; [now apply leb_refl|].
  destruct (get_sign a); [now apply ltb_false_leb|now apply leb_refl].
Qed.

Lemma Math_max_nonneg a b :
  (0 <=? a) = true -> (0 <=? b) = true -> (0 <=? JS.Math_max a b) = true.
Proof.
  intros Ha Hb.
  destruct (Math_max_cases a b) as [E|E]; try rewrite E; auto using nonneg_not_nan.
Qed.

Lemma Math_min_one_bounds v :
  (0 <=? v) = true ->
  (0 <=? JS.Math_min 1 v) = true /\ (JS.Math_min 1 v <=? 1) = true.
Proof.
  intros Hv. pose proof (nonneg_not_nan v Hv) as Hn.
  unfold JS.Math_min. rewrite Hn. change (is_nan 1) with false. simpl.
  destruct (1 <? v) eqn:L1; [split; reflexivity|].
  destruct (v <? 1) eqn:L2; [split; [exact Hv|now apply ltb_leb]|].
  change (get_sign 1) with false. cbv iota.
  split; [exact Hv|]. now apply ltb_false_leb.
Qed.

End PrimFacts.

(** ** Strict order, and [Math.min] against 1 *)

Section StrictOrder.
Local Open Scope float_scope.

Lemma ltb_not_nan a b : (a <? b) = true -> is_nan a = false /\ is_nan b = false.
Proof.
  rewrite FloatAxioms.ltb_spec, !is_nan_false. unfold SFltb.
  destruct (Prim2SF a), (Prim2SF b); simpl; try discriminate; split; discriminate.
Qed.

Lemma ltb_asym a b : (a <? b) = true -> (b <? a) = false.
Proof.
  rewrite !FloatAxioms.ltb_spec. unfold SFltb.
  rewrite (SFcompare_antisym (Prim2SF a) (Prim2SF b)).
  destruct (SFcompare (Prim2SF a) (Prim2SF b)) as [[]|]; simpl; congruence.
Qed.

Lemma Math_max_lt_r a b : (a <? b) = true -> JS.Math_max a b = b.
Proof.
  intros H. destruct (ltb_not_nan a b H) as [Ha Hb].
  unfold JS.Math_max. now rewrite Ha, Hb, H.
Qed.

Lemma Math_max_lt_l a b : (b <? a) = true -> JS.Math_max a b = a.
Proof.
  intros H. destruct (ltb_not_nan b a H) as [Hb Ha].
  unfold JS.Math_max. now rewrite Ha, Hb, (ltb_asym b a H), H.
Qed.

End StrictOrder.

Section MinOfOne.
Local Open Scope float_scope.

Lemma SFcompare_Eq_finite s m e y :
  SFcompare (S754_finite s m e) y = Some Eq -> y = S754_finite s m e.
Proof.
  destruct y as [sy|sy| |sy my ey]; simpl; try (destruct s; discriminate);
    try (destruct s, sy; discriminate); try discriminate.
  destruct s, sy; try discriminate;
    destruct (Z.compare e ey) eqn:E; try discriminate;
    destruct (Pos.compare_cont Eq m my) eqn:P; try discriminate; intros _;
    apply Z.compare_eq in E; apply Pos.compare_eq in P; now subst.
Qed.

Lemma leb_not_nan a b : (a <=? b) = true -> is_nan a = false /\ is_nan b = false.
Proof.
  rewrite FloatAxioms.leb_spec, !is_nan_false. unfold SFleb.
  destruct (Prim2SF a), (Prim2SF b); simpl; try discriminate; split; discriminate.
Qed.

Lemma Math_min_one_cases x :
  (is_nan x = true -> is_nan (JS.Math_min 1 x) = true) /\
  ((x <? 1) = true -> JS.Math_min 1 x = x) /\
  ((1 <=? x) = true -> JS.Math_min 1 x = 1).
Proof.
  split; [|split]; intros H; unfold JS.Math_min.
  - rewrite H, orb_true_r. reflexivity.
  - destruct (ltb_not_nan x 1 H) as [Hx _]. rewrite Hx, (ltb_asym x 1 H), H.
    reflexivity.
  - destruct (leb_not_nan 1 x H) as [_ Hx].
    rewrite FloatAxioms.leb_spec in H. unfold SFleb in H.
    destruct (SFcompare (Prim2SF 1) (Prim2SF x)) as [[ | | ]|] eqn:C;
      try discriminate.
    + assert (E : exists m e, Prim2SF 1 = S754_finite false m e)
        by (vm_compute; eauto).
      destruct E as (m & e & E). rewrite E in C.
      apply SFcompare_Eq_finite in C. rewrite <- E in C.
      apply FloatAxioms.Prim2SF_inj in C. subst x. reflexivity.
    + assert (L : (1 <? x) = true)
        by (rewrite FloatAxioms.ltb_spec; unfold SFltb; now rewrite C).
      rewrite Hx, L. reflexivity.
Qed.

End MinOfOne.

(** * The transcript log *)

Section Log.
Local Open Scope nat_scope.

Lemma slice_last_length {A} n (l : list A) :
  List.length (JS.slice_last n l) = Nat.min n (List.length l).
Proof. unfold JS.slice_last. rewrite length_skipn. lia. Qed.

Lemma slice_last_snoc {A} n (l : list A) x :
  0 < n ->
  JS.slice_last n (JS.slice_last n l ++ [x]) = JS.slice_last n (l ++ [x]).
Proof.
  intros Hn. unfold JS.slice_last.
  rewrite !length_app, length_skipn, !skipn_app, length_skipn, skipn_skipn.
  simpl List.length.
  replace (List.length l - (List.length l - n) + 1 - n
           - (List.length l - (List.length l - n))) with 0 by lia.
  replace (List.length l + 1 - n - List.length l) with 0 by lia.
  f_equal. f_equal. lia.
Qed.

Lemma addLogs_snoc start ms m :
  addLogs start (ms ++ [m]) = addLog (addLogs start ms) m.
Proof. unfold addLogs. now rewrite fold_left_app. Qed.

Lemma addLogs_slice ms : addLogs [] ms = JS.slice_last 50 ms.
Proof.
  induction ms as [|m ms IH] using rev_ind.
  - reflexivity.
  - rewrite addLogs_snoc, IH. unfold addLog. apply slice_last_snoc. lia.
Qed.

End Log.

(** C8.  The log keeps the 50 most recent entries, oldest evicted first:
    starting from an empty log, after any 60 appends exactly the last 50
    appended entries remain, in the order they arrived (the first 10 are
    gone). *)
Theorem log_keeps_last_50 (ms : list LogMessage) :
  List.length ms = 60%nat ->
  addLogs [] ms = skipn 10 ms /\ List.length (addLogs [] ms) = 50%nat.
Proof.
  intros H. rewrite addLogs_slice. split.
  - unfold JS.slice_last. now rewrite H.
  - rewrite slice_last_length, H. reflexivity.
Qed.

Lemma log_keeps_last_50_witness :
  List.length sixty = 60%nat /\
  addLogs [] sixty = skipn 10 sixty /\
  map timestamp (addLogs [] sixty) = map Z.of_nat (seq 10 50).
Proof.
  split; [reflexivity|].
  destruct (log_keeps_last_50 sixty eq_refl) as [E _].
  split; [exact E|]. rewrite E. reflexivity.
Defined.

(** * The session hook *)

Import LiveAPI.

Ltac unfold_js :=
  unfold completion, exec, connect, onopen, onaudioprocess, onmessage,
    schedule, flush, onended, onclose, onerror, disconnect, sendVideoFrame,
    new_AudioContext, getUserMedia, live_connect, source_stop, onLog,
    setConnected, setVolume, call, new_object, await, optional, try_catch,
    throw, modify, get, bind, ret in *.

Section Connect.

Lemma connect_falsy w :
  JS.truthy (API_KEY w) = false ->
  connect w = (Normal tt, set_logs (addLog (logs w) (missing_key_entry w)) w).
Proof.
  intros H. unfold connect, bind, get. now rewrite H.
Qed.

Lemma connect_granted w :
  JS.truthy (API_KEY w) = true -> microphone w = Granted ->
  completion connect w = Normal tt /\
  sessionPromiseRef (exec connect w) = Some (S (S (fresh w))) /\
  calls (exec connect w)
  = calls w ++ [NewAudioContext (fresh w); NewAudioContext (S (fresh w));
                GetUserMedia; LiveConnect (S (S (fresh w)))] /\
  nextStartTimeRef (exec connect w) = 0%float.
Proof.
  intros K G. unfold_js. rewrite K. cbn. rewrite G. cbn.
  rewrite <- !app_assoc. auto.
Qed.

Lemma connect_resets w :
  JS.truthy (API_KEY w) = true -> nextStartTimeRef (exec connect w) = 0%float.
Proof.
  intros K. unfold_js. rewrite K. cbn.
  destruct (microphone w); reflexivity.
Qed.

Lemma opened_app a b : opened (a ++ b) = opened a ++ opened b.
Proof. unfold opened. apply flat_map_app. Qed.

Lemma closed_app a b : closed (a ++ b) = closed a ++ closed b.
Proof. unfold closed. apply flat_map_app. Qed.

End Connect.

(** C9.  When no API key is configured (it is undefined or empty),
    [connect] completes without any call to the browser or to the remote
    service; the log gets one more entry, of role [system], saying that the
    key was not found, and it is the last one; the connected state and the
    session ref are what they were, so a hook that was not connected stays
    not connected. *)
Theorem connect_without_credential (w : World) :
  JS.truthy (API_KEY w) = false ->
  completion connect w = Normal tt /\
  calls (exec connect w) = calls w /\
  logs (exec connect w) = addLog (logs w) (missing_key_entry w) /\
  last (logs (exec connect w)) (missing_key_entry w) = missing_key_entry w /\
  connected (exec connect w) = connected w /\
  sessionPromiseRef (exec connect w) = sessionPromiseRef w.
Proof.
  intros H. unfold completion, exec. rewrite (connect_falsy w H). cbn.
  repeat split.
  unfold addLog, JS.slice_last.
  rewrite length_app. cbn [List.length].
  rewrite skipn_app.
  replace (List.length (logs w) + 1 - 50 - List.length (logs w))%nat with 0%nat by lia.
  cbn [skipn]. apply last_last.
Qed.

Lemma connect_without_credential_witness :
  JS.truthy (API_KEY no_key) = false /\
  calls (exec connect no_key) = [] /\
  logs (exec connect no_key) = [missing_key_entry no_key] /\
  connected (exec connect no_key) = false.
Proof.
  split; [reflexivity|].
  destruct (connect_without_credential no_key eq_refl) as (_ & C & L & _ & N & _).
  split; [exact C|]. split; [exact L|exact N].
Defined.

(** C1, as stated, fails: from the hook as it mounts, with a key and the
    microphone granted, a first [connect] opens session 2 and a second one,
    with no [disconnect] in between, opens session 5 as well; both are then
    open, and the ref holds only the second. *)
Lemma connect_twice_two_sessions :
  sessionPromiseRef (exec connect with_key) = Some 2%nat /\
  live_sessions (exec connect with_key) = [2%nat] /\
  sessionPromiseRef (exec connect (exec connect with_key)) = Some 5%nat /\
  live_sessions (exec connect (exec connect with_key)) = [2%nat; 5%nat] /\
  List.length (live_sessions (exec connect (exec connect with_key))) <> 1%nat.
Proof. repeat split; try (vm_compute; reflexivity). vm_compute. discriminate. Qed.

(** C1, amended.  [connect] has no guard against an existing session:
    called while the ref already holds a session, with a key configured and
    the microphone granted, it requests one more session from the remote
    service, stores the new handle in the ref in place of the old one, and
    closes nothing, so every session that was open stays open and the new
    one is added to them. *)
Theorem connect_again_replaces_handle (w : World) (previous : nat) :
  sessionPromiseRef w = Some previous ->
  JS.truthy (API_KEY w) = true ->
  microphone w = Granted ->
  sessionPromiseRef (exec connect w) = Some (S (S (fresh w))) /\
  opened (calls (exec connect w)) = opened (calls w) ++ [S (S (fresh w))] /\
  closed (calls (exec connect w)) = closed (calls w) /\
  (forall s, In s (live_sessions w) -> In s (live_sessions (exec connect w))).
Proof.
  intros _ K G. destruct (connect_granted w K G) as (_ & R & C & _).
  assert (O : opened (calls (exec connect w))
              = opened (calls w) ++ [S (S (fresh w))])
    by (rewrite C, opened_app; reflexivity).
  assert (D : closed (calls (exec connect w)) = closed (calls w))
    by (rewrite C, closed_app; cbn; apply app_nil_r).
  repeat split; try assumption.
  intros s Hs. unfold live_sessions in *. rewrite O, D, filter_app.
  apply in_or_app. now left.
Qed.

Lemma connect_again_replaces_handle_witness :
  sessionPromiseRef once_connected = Some 2%nat /\
  sessionPromiseRef (exec connect once_connected) = Some 5%nat /\
  opened (calls (exec connect once_connected)) = [2%nat; 5%nat] /\
  closed (calls (exec connect once_connected)) = [] /\
  In 2%nat (live_sessions (exec connect once_connected)).
Proof.
  split; [reflexivity|].
  destruct (connect_again_replaces_handle once_connected 2%nat
              eq_refl eq_refl eq_refl) as (R & O & D & L).
  split; [exact R|]. split; [exact O|]. split; [exact D|].
  apply L. vm_compute. now left.
Defined.

Section Handlers.

Lemma bind_eq {A B} (c : M A) (k : A -> M B) w a w' :
  c w = (Normal a, w') -> bind c k w = k a w'.
Proof. intros E. unfold bind. now rewrite E. Qed.

Lemma onLog_eq r t w : onLog r t w = (Normal tt, logged r t w).
Proof. reflexivity. Qed.

Lemma schedule_eq now d w : schedule now d w = (Normal tt, scheduled now d w).
Proof. reflexivity. Qed.

Lemma set_calls_nil w : set_calls (calls w ++ []) w = w.
Proof. destruct w. unfold set_calls. cbn. now rewrite app_nil_r. Qed.

Lemma set_calls_twice a b w :
  set_calls (calls (set_calls (calls w ++ a) w) ++ b) (set_calls (calls w ++ a) w)
  = set_calls (calls w ++ a ++ b) w.
Proof. destruct w. unfold set_calls. cbn. now rewrite app_assoc. Qed.

Lemma stop_swallowed s w :
  try_catch (source_stop s) (fun _ => ret tt) w
  = (Normal tt, set_calls (calls w ++ [SourceStop s]) w).
Proof.
  unfold try_catch, source_stop, call, modify, bind, get, throw, ret.
  cbn. destruct (stop_raises w s); reflexivity.
Qed.

Lemma forEach_stop_swallowed l : forall w,
  forEach l (fun src => try_catch (source_stop src) (fun _ => ret tt)) w
  = (Normal tt, set_calls (calls w ++ map SourceStop l) w).
Proof.
  induction l as [|s l IH]; intros w.
  - cbn. now rewrite set_calls_nil.
  - cbn [forEach map]. erewrite bind_eq by apply stop_swallowed.
    rewrite IH. now rewrite set_calls_twice.
Qed.

Lemma flush_eq w : flush w = (Normal tt, flushed w).
Proof.
  unfold flush.
  erewrite bind_eq by apply onLog_eq.
  erewrite bind_eq by reflexivity.
  erewrite bind_eq by apply forEach_stop_swallowed.
  reflexivity.
Qed.

Lemma transcribe_eq message w :
  optional (outputTranscription message) (fun t => onLog model t) w
  = (Normal tt, transcribed message w).
Proof. unfold transcribed. destruct (outputTranscription message); reflexivity. Qed.

Lemma outputAudioContextRef_transcribed message w :
  outputAudioContextRef (transcribed message w) = outputAudioContextRef w.
Proof. unfold transcribed. destruct (outputTranscription message); reflexivity. Qed.

(** The handler on a message whose audio decodes and that is not an
    interruption. *)
Lemma onmessage_audio message now d w :
  inlineData message = Some (Decoded d) ->
  interrupted message = false ->
  outputAudioContextRef w <> None ->
  onmessage message now w = (Normal tt, scheduled now d (transcribed message w)).
Proof.
  intros Ha Hi Hc. unfold onmessage.
  erewrite bind_eq by apply transcribe_eq.
  erewrite bind_eq by reflexivity.
  rewrite Ha, outputAudioContextRef_transcribed.
  destruct (outputAudioContextRef w) as [c|]; [|congruence].
  erewrite bind_eq by apply schedule_eq.
  now rewrite Hi.
Qed.

Lemma onmessage_silent message now w :
  (inlineData message = None \/ outputAudioContextRef w = None) ->
  interrupted message = false ->
  onmessage message now w = (Normal tt, transcribed message w).
Proof.
  intros Ha Hi. unfold onmessage.
  erewrite bind_eq by apply transcribe_eq.
  erewrite bind_eq by reflexivity.
  rewrite outputAudioContextRef_transcribed.
  erewrite bind_eq with (a := tt) (w' := transcribed message w).
  - now rewrite Hi.
  - destruct Ha as [-> | ->]; [reflexivity|].
    destruct (inlineData message); reflexivity.
Qed.

Lemma onmessage_decode_error message now reason w :
  inlineData message = Some (DecodeError reason) ->
  outputAudioContextRef w <> None ->
  onmessage message now w = (Throw reason, transcribed message w).
Proof.
  intros Ha Hc. unfold onmessage.
  erewrite bind_eq by apply transcribe_eq.
  erewrite bind_eq by reflexivity.
  rewrite Ha, outputAudioContextRef_transcribed.
  destruct (outputAudioContextRef w) as [c|]; [|congruence].
  reflexivity.
Qed.

(** The handler on an interruption that gets as far as the flush. *)
Lemma onmessage_interrupted message now w :
  interrupted message = true ->
  reaches_flush message w = true ->
  onmessage message now w
  = (Normal tt,
     flushed match inlineData message, outputAudioContextRef w with
             | Some (Decoded d), Some _ => scheduled now d (transcribed message w)
             | _, _ => transcribed message w
             end).
Proof.
  intros Hi Hd. unfold onmessage.
  erewrite bind_eq by apply transcribe_eq.
  erewrite bind_eq by reflexivity.
  rewrite outputAudioContextRef_transcribed.
  unfold reaches_flush, decodes in Hd.
  destruct (inlineData message) as [[d|r]|];
    destruct (outputAudioContextRef w) as [c|]; try discriminate;
    (erewrite bind_eq by first [apply schedule_eq | reflexivity]);
    rewrite Hi; apply flush_eq.
Qed.

Lemma audioSourcesRef_transcribed message w :
  audioSourcesRef (transcribed message w) = audioSourcesRef w.
Proof. unfold transcribed. destruct (outputTranscription message); reflexivity. Qed.

Lemma nextStartTimeRef_transcribed message w :
  nextStartTimeRef (transcribed message w) = nextStartTimeRef w.
Proof. unfold transcribed. destruct (outputTranscription message); reflexivity. Qed.

Lemma calls_transcribed message w : calls (transcribed message w) = calls w.
Proof. unfold transcribed. destruct (outputTranscription message); reflexivity. Qed.

Lemma fresh_transcribed message w : fresh (transcribed message w) = fresh w.
Proof. unfold transcribed. destruct (outputTranscription message); reflexivity. Qed.

Lemma In_sources_add_new s l : In s (sources_add s l).
Proof.
  unfold sources_add. destruct (existsb (Nat.eqb s) l) eqn:E.
  - apply existsb_exists in E as (x & Hx & Ex).
    apply Nat.eqb_eq in Ex. now subst.
  - apply in_or_app. right. now left.
Qed.

Lemma In_sources_add_old s x l : In s l -> In s (sources_add x l).
Proof.
  unfold sources_add. destruct (existsb (Nat.eqb x) l); auto.
  intros H. apply in_or_app. now left.
Qed.

Lemma stop_requested_spec s w :
  stop_requested s w = true <-> In (SourceStop s) (calls w).
Proof.
  unfold stop_requested. rewrite existsb_exists. split.
  - intros (c & Hc & E). destruct c; try discriminate.
    apply Nat.eqb_eq in E. now subst.
  - intros H. exists (SourceStop s). split; [exact H|apply Nat.eqb_refl].
Qed.

End Handlers.

Section Playback.

Lemma play_eq chunks : forall w,
  outputAudioContextRef w <> None ->
  play chunks w = (Normal tt, played chunks w).
Proof.
  induction chunks as [|[now d] rest IH]; intros w Hc.
  - reflexivity.
  - cbn [play played].
    erewrite bind_eq by (apply onmessage_audio with (d := d); auto).
    apply IH. exact Hc.
Qed.

Lemma calls_played chunks : forall w,
  calls (played chunks w)
  = calls w ++ start_calls (fresh w) (timeline (nextStartTimeRef w) chunks).
Proof.
  induction chunks as [|[now d] rest IH]; intros w.
  - cbn. now rewrite app_nil_r.
  - cbn [played timeline start_calls]. rewrite IH. cbn.
    now rewrite <- app_assoc.
Qed.

Lemma timeline_no_overlap chunks : forall cursor,
  (0 <=? cursor)%float = true ->
  Forall chunk_ok chunks ->
  no_overlap (timeline cursor chunks) = true.
Proof.
  induction chunks as [|[now d] rest IH]; intros cursor Hc Hok.
  - reflexivity.
  - inversion Hok as [|? ? [Hn Hd] Hrest]; subst. cbn in Hn, Hd.
    assert (Hend : (0 <=? JS.Math_max now cursor + d)%float = true).
    { apply add_nonneg; [now apply Math_max_nonneg|exact Hd]. }
    cbn [timeline no_overlap]. rewrite (IH _ Hend Hrest), andb_true_r.
    destruct rest as [|[now2 d2] rest2]; [reflexivity|].
    cbn [timeline]. inversion Hrest as [|? ? [Hn2 _] _]; subst. cbn in Hn2.
    apply Math_max_ge_r; now apply nonneg_not_nan.
Qed.

End Playback.



Section Flush.

Lemma flushed_stops w s :
  In s (audioSourcesRef w) -> stop_requested s (flushed w) = true.
Proof.
  intros H. apply stop_requested_spec. unfold flushed. cbn.
  apply in_or_app. right. now apply in_map.
Qed.

Lemma Math_max_zero_ge now :
  is_nan now = false -> (now <=? JS.Math_max now 0)%float = true.
Proof. intros H. now apply Math_max_ge_l. Qed.

End Flush.




Section Disconnect.

Lemma stop_ok s w :
  stop_raises w s = false ->
  source_stop s w = (Normal tt, set_calls (calls w ++ [SourceStop s]) w).
Proof.
  intros H. unfold source_stop, call, modify, bind, get, throw, ret. cbn.
  now rewrite H.
Qed.

Lemma forEach_stop_ok l : forall w,
  (forall s, In s l -> stop_raises w s = false) ->
  forEach l source_stop w
  = (Normal tt, set_calls (calls w ++ map SourceStop l) w).
Proof.
  induction l as [|s l IH]; intros w H.
  - cbn. now rewrite set_calls_nil.
  - cbn [forEach map]. erewrite bind_eq by (apply stop_ok, H; now left).
    rewrite IH by (intros; apply H; now right).
    now rewrite set_calls_twice.
Qed.

Lemma bind_optional_call {B} r f (k : unit -> M B) w :
  bind (optional r (fun n => call (f n))) k w = k tt (appended r f w).
Proof. destruct r; reflexivity. Qed.

Lemma appended_fields r f w :
  audioSourcesRef (appended r f w) = audioSourcesRef w /\
  stop_raises (appended r f w) = stop_raises w /\
  nextStartTimeRef (appended r f w) = nextStartTimeRef w /\
  connected (appended r f w) = connected w /\
  volume (appended r f w) = volume w.
Proof. destruct r; cbn; auto. Qed.

(** The world in which [disconnect] reaches the stopping of the sources. *)
Lemma disconnect_eq w :
  (forall p, sessionPromiseRef w = Some p -> promise_state w p = Fulfilled) ->
  exists w1,
    disconnect w
    = bind (forEach (audioSourcesRef w) source_stop)
        (fun _ => bind (modify (set_audioSourcesRef []))
           (fun _ => bind (setConnected false) (fun _ => setVolume 0%float))) w1
    /\ audioSourcesRef w1 = audioSourcesRef w
    /\ stop_raises w1 = stop_raises w
    /\ nextStartTimeRef w1 = nextStartTimeRef w.
Proof.
  intros Hp.
  set (w0 := appended (sessionPromiseRef w) SessionClose w).
  exists (appended (outputAudioContextRef w) ContextClose
            (appended (inputAudioContextRef w) ContextClose
               (appended (processorRef w) NodeDisconnect
                  (appended (inputSourceRef w) NodeDisconnect w0)))).
  split.
  - unfold disconnect. erewrite bind_eq by reflexivity.
    erewrite bind_eq with (a := tt) (w' := w0).
    + now rewrite !bind_optional_call.
    + subst w0. destruct (sessionPromiseRef w) as [p|] eqn:E; [|reflexivity].
      unfold optional, await, call, modify, bind. now rewrite (Hp p eq_refl).
  - subst w0.
    repeat match goal with
           | |- context [appended ?r ?f ?x] =>
               let H := fresh in
               pose proof (appended_fields r f x) as H;
               destruct H as (-> & -> & -> & _)
           end.
    auto.
Qed.

(** When no [stop] raises and the session promise, if there is one, is
    fulfilled, [disconnect] runs to its end. *)
Lemma disconnect_completes w :
  (forall s, In s (audioSourcesRef w) -> stop_raises w s = false) ->
  (forall p, sessionPromiseRef w = Some p -> promise_state w p = Fulfilled) ->
  completion disconnect w = Normal tt /\
  (forall s, In s (audioSourcesRef w) ->
             stop_requested s (exec disconnect w) = true) /\
  audioSourcesRef (exec disconnect w) = [] /\
  connected (exec disconnect w) = false /\
  volume (exec disconnect w) = 0%float /\
  nextStartTimeRef (exec disconnect w) = nextStartTimeRef w.
Proof.
  intros Hs Hp. destruct (disconnect_eq w Hp) as (w1 & E & Ea & Er & En).
  unfold completion, exec. rewrite E.
  erewrite bind_eq.
  2:{ apply forEach_stop_ok. intros s Hin. rewrite Er. now apply Hs. }
  cbn -[stop_requested]. repeat split; auto.
  intros s Hin. apply stop_requested_spec. cbn.
  apply in_or_app. right. now apply in_map.
Qed.

End Disconnect.

(** C4, on the code: with the sources 5, 6 and 7 pending, the hook
    connected and the volume at 1, if stopping source 5 raises then
    [disconnect] ends with that exception: sources 6 and 7 are never asked
    to stop, the pending set still holds the three sources, the connected
    state is still true and the volume is still 1. *)
Theorem disconnect_aborts_when_a_stop_raises :
  let w := three_pending (fun s => Nat.eqb s 5) in
  audioSourcesRef w = [5; 6; 7]%nat /\
  connected w = true /\
  volume w = 1%float /\
  completion disconnect w = Throw "InvalidStateError" /\
  stop_requested 5 (exec disconnect w) = true /\
  stop_requested 6 (exec disconnect w) = false /\
  stop_requested 7 (exec disconnect w) = false /\
  audioSourcesRef (exec disconnect w) = [5; 6; 7]%nat /\
  connected (exec disconnect w) = true /\
  volume (exec disconnect w) = 1%float.
Proof. cbv zeta. repeat split; vm_compute; reflexivity. Qed.

Create HintDb cursor.

Section Cursor.

Lemma keeps_ret {A} (a : A) : keeps_cursor (ret a).
Proof. intros w. reflexivity. Qed.

Lemma keeps_throw {A} e : keeps_cursor (@throw A e).
Proof. intros w. reflexivity. Qed.

Lemma keeps_get : keeps_cursor get.
Proof. intros w. reflexivity. Qed.

Lemma keeps_bind {A B} (c : M A) (k : A -> M B) :
  keeps_cursor c -> (forall a, keeps_cursor (k a)) -> keeps_cursor (bind c k).
Proof.
  intros Hc Hk w. unfold bind. specialize (Hc w).
  destruct (c w) as [[a|e|] w1]; cbn in *; try assumption.
  now rewrite Hk.
Qed.

Lemma keeps_try_catch {A} (c : M A) h :
  keeps_cursor c -> (forall e, keeps_cursor (h e)) -> keeps_cursor (try_catch c h).
Proof.
  intros Hc Hh w. unfold try_catch. specialize (Hc w).
  destruct (c w) as [[a|e|] w1]; cbn in *; try assumption.
  now rewrite Hh.
Qed.

Lemma keeps_optional {A} (r : option A) f :
  (forall a, keeps_cursor (f a)) -> keeps_cursor (optional r f).
Proof. intros H. destruct r; [apply H|apply keeps_ret]. Qed.

Lemma keeps_forEach {A} (l : list A) f :
  (forall a, keeps_cursor (f a)) -> keeps_cursor (forEach l f).
Proof.
  intros H. induction l; cbn [forEach].
  - apply keeps_ret.
  - apply keeps_bind; auto.
Qed.

Lemma keeps_call c : keeps_cursor (call c).
Proof. intros w. reflexivity. Qed.

Lemma keeps_onLog r t : keeps_cursor (onLog r t).
Proof. intros w. reflexivity. Qed.

Lemma keeps_setConnected v : keeps_cursor (setConnected v).
Proof. intros w. reflexivity. Qed.

Lemma keeps_setVolume v : keeps_cursor (setVolume v).
Proof. intros w. reflexivity. Qed.

Lemma keeps_new_object : keeps_cursor new_object.
Proof. intros w. reflexivity. Qed.

Lemma keeps_await p : keeps_cursor (await p).
Proof. intros w. unfold await. destruct (promise_state w p); reflexivity. Qed.

Lemma keeps_source_stop s : keeps_cursor (source_stop s).
Proof.
  intros w. unfold source_stop, call, modify, bind, get. cbn.
  destruct (stop_raises w s); reflexivity.
Qed.

Lemma keeps_modify f :
  (forall w, nextStartTimeRef (f w) = nextStartTimeRef w) -> keeps_cursor (modify f).
Proof. intros H w. apply H. Qed.

End Cursor.

#[local] Hint Resolve keeps_ret keeps_throw keeps_get keeps_call keeps_onLog
  keeps_setConnected keeps_setVolume keeps_new_object keeps_await
  keeps_source_stop : cursor.

Ltac keeps :=
  repeat first
    [ apply keeps_bind; [|intro]
    | apply keeps_optional; intro
    | apply keeps_forEach; intro
    | apply keeps_try_catch; [|intro]
    | apply keeps_modify; intro; reflexivity
    | solve [auto with cursor]
    | match goal with
      | |- keeps_cursor (match ?x with _ => _ end) => destruct x
      end ].

Section CursorHandlers.

Lemma keeps_disconnect : keeps_cursor disconnect.
Proof. unfold disconnect. keeps. Qed.

Lemma keeps_onopen : keeps_cursor onopen.
Proof. unfold onopen. keeps. Qed.

Lemma keeps_onaudioprocess inputData : keeps_cursor (onaudioprocess inputData).
Proof. unfold onaudioprocess. keeps. Qed.

Lemma keeps_onended s : keeps_cursor (onended s).
Proof. unfold onended. keeps. Qed.

Lemma keeps_onclose : keeps_cursor onclose.
Proof. unfold onclose. keeps. Qed.

Lemma keeps_onerror t : keeps_cursor (onerror t).
Proof. unfold onerror. keeps. Qed.

Lemma keeps_sendVideoFrame : keeps_cursor sendVideoFrame.
Proof. unfold sendVideoFrame. keeps. Qed.

Lemma connect_cursor w :
  nextStartTimeRef (exec connect w)
  = if JS.truthy (API_KEY w) then 0%float else nextStartTimeRef w.
Proof.
  destruct (JS.truthy (API_KEY w)) eqn:K.
  - now apply connect_resets.
  - unfold exec. now rewrite connect_falsy.
Qed.

Lemma scheduled_cursor_ge now d w :
  (0 <=? now)%float = true -> (0 <=? d)%float = true ->
  (0 <=? nextStartTimeRef w)%float = true ->
  (nextStartTimeRef w <=? nextStartTimeRef (scheduled now d w))%float = true
  /\ (0 <=? nextStartTimeRef (scheduled now d w))%float = true.
Proof.
  intros Hn Hd Hc. cbn.
  assert (Hm : (0 <=? JS.Math_max now (nextStartTimeRef w))%float = true)
    by now apply Math_max_nonneg.
  split.
  - eapply leb_trans.
    + apply Math_max_ge_r; apply nonneg_not_nan; [exact Hn|exact Hc].
    + now apply add_ge_l.
  - now apply add_nonneg.
Qed.

Lemma onmessage_cursor message now w :
  wellformed (Message message now) = true ->
  (0 <=? nextStartTimeRef w)%float = true ->
  (0 <=? nextStartTimeRef (exec (onmessage message now) w))%float = true /\
  if resets (Message message now) w
  then nextStartTimeRef (exec (onmessage message now) w) = 0%float
  else (nextStartTimeRef w
        <=? nextStartTimeRef (exec (onmessage message now) w))%float = true.
Proof.
  intros Hwf Hc. cbn in Hwf. apply andb_prop in Hwf as [Hn Hd].
  pose proof (leb_refl _ (nonneg_not_nan _ Hc)) as Hrefl.
  unfold resets, exec.
  destruct (interrupted message) eqn:Hi; cbn [andb].
  - destruct (reaches_flush message w) eqn:Hr.
    + rewrite (onmessage_interrupted message now w Hi Hr). cbn. auto.
    + unfold reaches_flush, decodes in Hr.
      destruct (inlineData message) as [[d|r]|] eqn:Ha; try discriminate.
      destruct (outputAudioContextRef w) as [c|] eqn:Hctx; try discriminate.
      rewrite (onmessage_decode_error message now r w Ha) by congruence.
      cbn [snd]. rewrite nextStartTimeRef_transcribed. auto.
  - destruct (inlineData message) as [[d|r]|] eqn:Ha.
    + destruct (outputAudioContextRef w) as [c|] eqn:Hctx.
      * rewrite (onmessage_audio message now d w Ha Hi) by congruence.
        cbn [snd].
        destruct (scheduled_cursor_ge now d (transcribed message w) Hn Hd) as [G P];
          rewrite ?nextStartTimeRef_transcribed in *; auto.
      * rewrite (onmessage_silent message now w) by auto.
        cbn [snd]. rewrite nextStartTimeRef_transcribed. auto.
    + destruct (outputAudioContextRef w) as [c|] eqn:Hctx.
      * rewrite (onmessage_decode_error message now r w Ha) by congruence.
        cbn [snd]. rewrite nextStartTimeRef_transcribed. auto.
      * rewrite (onmessage_silent message now w) by auto.
        cbn [snd]. rewrite nextStartTimeRef_transcribed. auto.
    + rewrite (onmessage_silent message now w) by auto.
      cbn [snd]. rewrite nextStartTimeRef_transcribed. auto.
Qed.

End CursorHandlers.




Section Volume.

Lemma onaudioprocess_volume inputData w :
  volume (exec (onaudioprocess inputData) w) = display_volume inputData.
Proof.
  unfold exec, onaudioprocess, setVolume, modify, bind, get, optional. cbn.
  destruct (sessionPromiseRef w) as [p|]; [|reflexivity].
  destruct (promise_state w p); reflexivity.
Qed.

Lemma fold_squares_nonneg l : forall acc,
  (0 <=? acc)%float = true ->
  Forall (fun x => is_nan x = false) l ->
  (0 <=? fold_left (fun sum x => (sum + x * x)%float) l acc)%float = true.
Proof.
  induction l as [|x l IH]; intros acc Ha Hl.
  - exact Ha.
  - inversion Hl; subst. cbn [fold_left]. apply IH; [|assumption].
    apply add_nonneg; [exact Ha|now apply mul_self_nonneg].
Qed.

Lemma display_volume_bounds inputData :
  0 < Z.of_nat (List.length inputData) < 2 ^ 53 ->
  Forall (fun x => is_nan x = false) inputData ->
  (0 <=? display_volume inputData)%float = true /\
  (display_volume inputData <=? 1)%float = true.
Proof.
  intros Hlen Hnan. unfold display_volume.
  apply Math_min_one_bounds, mul_five_nonneg.
  unfold rms, JS.Math_sqrt. apply sqrt_nonneg.
  destruct (length_number_finite inputData Hlen) as (m & e & E).
  apply (div_nonneg _ _ m e E).
  unfold sum_squares. now apply fold_squares_nonneg.
Qed.

End Volume.

(** C7.  For every captured frame, the volume published by
    [onaudioprocess] is the smaller of 1 and [rms * 5], where [rms] is the
    square root ([Math.sqrt], the binary64 square root) of the sum of the
    squares of the samples, added up from 0 in their order, divided by
    their number: it is [rms * 5] itself when that is below 1, it is 1 when
    that is 1 or more, and it is NaN when that is NaN.  For the frame of
    4096 zero samples the rms is 0 and the published volume is 0; for 4096
    samples of 0.125 the rms is 0.125 and the volume 0.625; for 4096
    samples of -0.5 the rms is 0.5 and the volume is capped at 1. *)
Theorem volume_is_capped_rms (w : World) (inputData : list float) :
  let mean_square :=
    (fold_left (fun sum x => sum + x * x) inputData 0
     / of_uint63 (Uint63.of_Z (Z.of_nat (List.length inputData))))%float in
  let amplified := (PrimFloat.sqrt mean_square * 5)%float in
  let published := volume (exec (onaudioprocess inputData) w) in
  rms inputData = PrimFloat.sqrt mean_square /\
  ((amplified <? 1)%float = true -> published = amplified) /\
  ((1 <=? amplified)%float = true -> published = 1%float) /\
  (is_nan amplified = true -> is_nan published = true) /\
  List.length silence = 4096%nat /\
  rms silence = 0%float /\
  volume (exec (onaudioprocess silence) w) = 0%float /\
  rms quiet_frame = 0.125%float /\
  volume (exec (onaudioprocess quiet_frame) w) = 0.625%float /\
  rms clipping_frame = 0.5%float /\
  volume (exec (onaudioprocess clipping_frame) w) = 1%float.
Proof.
  cbv zeta. rewrite !onaudioprocess_volume.
  destruct (Math_min_one_cases
              (PrimFloat.sqrt
                 (fold_left (fun sum x => sum + x * x) inputData 0
                  / of_uint63 (Uint63.of_Z (Z.of_nat (List.length inputData))))
               * 5)%float) as (N & L & G).
  split; [reflexivity|]. split; [exact L|]. split; [exact G|].
  split; [exact N|]. repeat split; vm_compute; reflexivity.
Qed.

(** C10, as stated, fails: for the empty frame, and for the frame of 4096
    samples whose first sample is NaN, the published volume is NaN, which
    is neither at least 0 nor at most 1. *)
Lemma volume_of_nan_frame :
  is_nan (volume (exec (onaudioprocess []) all_fulfilled)) = true /\
  List.length frame_with_nan = 4096%nat /\
  is_nan (volume (exec (onaudioprocess frame_with_nan) all_fulfilled)) = true /\
  (0 <=? volume (exec (onaudioprocess frame_with_nan) all_fulfilled))%float = false /\
  (volume (exec (onaudioprocess frame_with_nan) all_fulfilled) <=? 1)%float = false.
Proof. repeat split; vm_compute; reflexivity. Qed.

(** C10, amended.  For every captured frame that is not empty (and shorter
    than 2^53) and none of whose samples is NaN, the published volume is at
    least 0 and at most 1. *)
Theorem volume_in_unit_interval (w : World) (inputData : list float) :
  0 < Z.of_nat (List.length inputData) < 2 ^ 53 ->
  Forall (fun x => is_nan x = false) inputData ->
  (0 <=? volume (exec (onaudioprocess inputData) w))%float = true /\
  (volume (exec (onaudioprocess inputData) w) <=? 1)%float = true.
Proof.
  intros Hlen Hnan. rewrite onaudioprocess_volume.
  now apply display_volume_bounds.
Qed.

Lemma volume_in_unit_interval_witness :
  volume (exec (onaudioprocess loud_frame) all_fulfilled) = 1%float /\
  (0 <=? volume (exec (onaudioprocess loud_frame) all_fulfilled))%float = true /\
  (volume (exec (onaudioprocess loud_frame) all_fulfilled) <=? 1)%float = true.
Proof.
  split; [vm_compute; reflexivity|].
  apply (volume_in_unit_interval all_fulfilled loud_frame).
  - vm_compute. split; reflexivity.
  - repeat constructor.
Defined.

(** * The PCM codec *)

Section CodecFacts.

Variable round : Q -> Z.
Hypothesis round_adjacent : forall q, (Qabs (inject_Z (round q) - q) < 1)%Q.

Lemma clamp16_range v : -32768 <= Pcm.clamp16 v <= 32767.
Proof. unfold Pcm.clamp16. lia. Qed.

Lemma int16_bytes v :
  -32768 <= v <= 32767 ->
  Pcm.int16_of_bytes ((v mod 65536) mod 256) ((v mod 65536) / 256) = v.
Proof.
  intros H. unfold Pcm.int16_of_bytes.
  rewrite (Z.add_comm _ (256 * _)), <- Z.div_mod by lia.
  destruct (Z.ltb_spec (v mod 65536) 32768) as [L|G];
    revert L || revert G; Z.div_mod_to_equations; lia.
Qed.

Lemma decode_encode samples :
  Pcm.decode (Pcm.encode round samples)
  = Some (map (fun x => (inject_Z (Pcm.quantize round x) / 32768)%Q) samples).
Proof.
  induction samples as [|x rest IH]; [reflexivity|].
  cbn [Pcm.encode flat_map Pcm.bytes_of_int16 app map].
  cbn [Pcm.decode]. fold (Pcm.encode round rest). rewrite IH.
  now rewrite int16_bytes by apply clamp16_range.
Qed.

Lemma quantize_error x :
  (-1 <= x <= 1)%Q ->
  within_step x (inject_Z (Pcm.quantize round x) / 32768)%Q.
Proof.
  intros [Hlo Hhi]. unfold within_step, Pcm.quantize.
  pose proof (round_adjacent (x * 32768)%Q) as Hr.
  apply Qabs_Qlt_condition in Hr. destruct Hr as [Hr1 Hr2].
  set (r := round (x * 32768)%Q) in *. clearbody r.
  apply Qabs_Qle_condition.
  unfold Qdiv. change (/ 32768)%Q with (1 # 32768)%Q.
  destruct (Z_lt_le_dec r (-32768)) as [L|G].
  - (* below the range: impossible *)
    assert (E : (inject_Z r <= inject_Z (-32769))%Q) by (rewrite <- Zle_Qle; lia).
    change (inject_Z (-32769)) with (-32769 # 1)%Q in E. exfalso. lra.
  - destruct (Z_lt_le_dec 32767 r) as [L|G'].
    + replace (Pcm.clamp16 r) with 32767 by (unfold Pcm.clamp16; lia).
      assert (E : (inject_Z 32768 <= inject_Z r)%Q) by (rewrite <- Zle_Qle; lia).
      change (inject_Z 32768) with (32768 # 1)%Q in E.
      change (inject_Z 32767) with (32767 # 1)%Q. lra.
    + replace (Pcm.clamp16 r) with r by (unfold Pcm.clamp16; lia).
      lra.
Qed.

End CodecFacts.

(** C6.  For the codec modelled from the spec, with any rounding that
    returns an integer less than 1 away from its argument: for every
    sequence of samples in [-1, 1], decoding the encoded bytes succeeds and
    gives as many samples, each within 1/32768 of the one it comes from.
    Both functions are functions of their argument alone. *)
Theorem codec_round_trip (round : Q -> Z) (samples : list Q) :
  (forall q, (Qabs (inject_Z (round q) - q) < 1)%Q) ->
  Forall (fun x => (-1 <= x <= 1)%Q) samples ->
  exists decoded,
    Pcm.decode (Pcm.encode round samples) = Some decoded /\
    Forall2 within_step samples decoded.
Proof.
  intros Hround Hs. eexists. split; [apply decode_encode|].
  induction Hs as [|x rest Hx _ IH]; cbn [map]; constructor; auto.
  now apply quantize_error.
Qed.

Lemma Qfloor_adjacent q : (Qabs (inject_Z (Qfloor q) - q) < 1)%Q.
Proof.
  apply Qabs_Qlt_condition.
  pose proof (Qfloor_le q). pose proof (Qlt_floor q) as H1.
  rewrite inject_Z_plus in H1. change (inject_Z 1) with 1%Q in H1.
  split; lra.
Qed.

Lemma codec_round_trip_witness :
  Pcm.encode Qfloor some_samples
  = [255; 127; 0; 128; 0; 0; 0; 64; 170; 42; 109; 219] /\
  exists decoded,
    Pcm.decode (Pcm.encode Qfloor some_samples) = Some decoded /\
    Forall2 within_step some_samples decoded.
Proof.
  split; [vm_compute; reflexivity|].
  apply (codec_round_trip Qfloor some_samples Qfloor_adjacent).
  repeat constructor; cbv; discriminate.
Defined.

(** * Further properties

    ** The log *)

Section LogAppend.
Local Open Scope nat_scope.

Lemma addLog_split (prev : list LogMessage) (m : LogMessage) :
  exists dropped kept,
    prev = dropped ++ kept /\ addLog prev m = kept ++ [m] /\
    List.length dropped = List.length prev + 1 - 50.
Proof.
  exists (firstn (List.length prev + 1 - 50) prev),
         (skipn (List.length prev + 1 - 50) prev).
  split; [symmetry; apply firstn_skipn|]. split.
  - unfold addLog, JS.slice_last. rewrite length_app. cbn [List.length].
    rewrite skipn_app.
    replace (List.length prev + 1 - 50 - List.length prev) with 0 by lia.
    reflexivity.
  - rewrite length_firstn. lia.
Qed.

End LogAppend.

(** X1.  One [addLog] puts the new entry last and keeps the entries before it
    in their order; exactly as many of the oldest are dropped as the log
    would otherwise exceed 50 entries by (none while it holds fewer than
    50), so the new log has [min 50 (n + 1)] entries. *)
Theorem addLog_keeps_newest (prev : list LogMessage) (m : LogMessage) :
  exists dropped kept,
    prev = dropped ++ kept /\
    addLog prev m = kept ++ [m] /\
    List.length dropped = (List.length prev + 1 - 50)%nat /\
    List.length (addLog prev m) = Nat.min 50 (List.length prev + 1).
Proof.
  destruct (addLog_split prev m) as (dropped & kept & E & A & L).
  exists dropped, kept. repeat split; try assumption.
  unfold addLog. rewrite slice_last_length, length_app. reflexivity.
Qed.

(** X2.  Whatever the number of entries appended to an empty log, the log
    is the appended sequence without its oldest entries: all of it up to 50
    entries, its last 50 beyond. *)
Theorem addLogs_any_number (ms : list LogMessage) :
  exists dropped,
    ms = dropped ++ addLogs [] ms /\
    List.length dropped = (List.length ms - 50)%nat /\
    List.length (addLogs [] ms) = Nat.min 50 (List.length ms).
Proof.
  exists (firstn (List.length ms - 50) ms). rewrite addLogs_slice.
  split; [symmetry; apply firstn_skipn|]. split.
  - rewrite length_firstn. lia.
  - apply slice_last_length.
Qed.

Section Preservation.

Variable Inv : World -> Prop.

Lemma preserves_ret {A} (a : A) : preserves Inv (ret a).
Proof. intros w H. exact H. Qed.

Lemma preserves_throw {A} e : preserves Inv (@throw A e).
Proof. intros w H. exact H. Qed.

Lemma preserves_get : preserves Inv get.
Proof. intros w H. exact H. Qed.

Lemma preserves_await p : preserves Inv (await p).
Proof. intros w H. unfold await. destruct (promise_state w p); exact H. Qed.

Lemma preserves_bind {A B} (c : M A) (k : A -> M B) :
  preserves Inv c -> (forall a, preserves Inv (k a)) -> preserves Inv (bind c k).
Proof.
  intros Hc Hk w H. unfold bind. specialize (Hc w H).
  destruct (c w) as [[a|e|] w1]; cbn in *; try assumption.
  now apply Hk.
Qed.

Lemma preserves_try_catch {A} (c : M A) h :
  preserves Inv c -> (forall e, preserves Inv (h e)) -> preserves Inv (try_catch c h).
Proof.
  intros Hc Hh w H. unfold try_catch. specialize (Hc w H).
  destruct (c w) as [[a|e|] w1]; cbn in *; try assumption.
  now apply Hh.
Qed.

Lemma preserves_optional {A} (r : option A) f :
  (forall a, preserves Inv (f a)) -> preserves Inv (optional r f).
Proof. intros H. destruct r; [apply H|apply preserves_ret]. Qed.

Lemma preserves_forEach {A} (l : list A) f :
  (forall a, preserves Inv (f a)) -> preserves Inv (forEach l f).
Proof.
  intros H. induction l; cbn [forEach].
  - apply preserves_ret.
  - apply preserves_bind; auto.
Qed.

Lemma preserves_modify f :
  (forall w, Inv w -> Inv (f w)) -> preserves Inv (modify f).
Proof. intros H w Hw. now apply H. Qed.

Lemma preserves_run events :
  (forall e, preserves Inv (handle e)) ->
  forall w, Inv w -> Inv (run events w).
Proof.
  intros H. unfold run. induction events as [|e rest IH]; intros w Hw.
  - exact Hw.
  - cbn [fold_left]. apply IH. now apply H.
Qed.

End Preservation.

Ltac preserving leaf :=
  repeat first
    [ leaf
    | match goal with
      | |- preserves _ (match ?x with _ => _ end) => destruct x
      | |- preserves _ (bind _ _) => apply preserves_bind; [|intro]
      | |- preserves _ (optional _ _) => apply preserves_optional; intro
      | |- preserves _ (forEach _ _) => apply preserves_forEach; intro
      | |- preserves _ (try_catch _ _) => apply preserves_try_catch; [|intro]
      | |- preserves _ (ret _) => apply preserves_ret
      | |- preserves _ (throw _) => apply preserves_throw
      | |- preserves _ get => apply preserves_get
      | |- preserves _ (await _) => apply preserves_await
      end ].

Section LogBound.

Lemma log_bounded_modify f :
  (forall w, logs (f w) = logs w) -> preserves log_bounded (modify f).
Proof. intros H. apply preserves_modify. intros w Hw. unfold log_bounded. now rewrite H. Qed.

Lemma log_bounded_onLog r t : preserves log_bounded (onLog r t).
Proof.
  intros w _. unfold log_bounded. cbn. unfold addLog.
  rewrite slice_last_length. lia.
Qed.

Lemma log_bounded_new_object : preserves log_bounded new_object.
Proof. intros w H. exact H. Qed.

Lemma log_bounded_handle e : preserves log_bounded (handle e).
Proof.
  destruct e; cbn [handle];
    unfold connect, onopen, onaudioprocess, onmessage, onended, onclose,
      onerror, disconnect, sendVideoFrame, schedule, flush, new_AudioContext,
      getUserMedia, live_connect, source_stop, call, setConnected, setVolume;
    preserving ltac:(idtac; match goal with
                     | |- preserves _ (onLog _ _) => apply log_bounded_onLog
                     | |- preserves _ new_object => apply log_bounded_new_object
                     | |- preserves _ (modify _) =>
                         apply log_bounded_modify; intro; reflexivity
                     end).
Qed.

End LogBound.

(** X3.  No callback of the hook lets the log grow past 50 entries: if the
    log holds at most 50 entries, it holds at most 50 after any sequence of
    hook events (connect, open, audio frames, server messages, ended
    sources, close, error, disconnect, video frames). *)
Theorem log_never_exceeds_50 (events : list Event) (w : World) :
  (List.length (logs w) <= 50)%nat ->
  (List.length (logs (run events w)) <= 50)%nat.
Proof.
  intros H. apply (preserves_run log_bounded events log_bounded_handle w H).
Qed.

Lemma log_never_exceeds_50_witness :
  (List.length (logs (run (repeat Close 60) playing)) <= 50)%nat.
Proof.
  apply (log_never_exceeds_50 (repeat Close 60) playing). cbn. lia.
Defined.

(** ** [connect] and [disconnect] *)

Section ConnectOutcomes.

Lemma connect_denied w reason :
  JS.truthy (API_KEY w) = true -> microphone w = Denied reason ->
  connect w
  = (Normal tt,
     set_connected false
       (logged system ("Connection Failed: " ++ reason)
          (exec (call GetUserMedia)
             (logged system "Connecting to Gemini Live..."
                (set_nextStartTimeRef 0%float
                   (set_outputAudioContextRef (Some (S (fresh w)))
                      (exec (call (NewAudioContext (S (fresh w))))
                         (set_inputAudioContextRef (Some (fresh w))
                            (exec (call (NewAudioContext (fresh w)))
                               (set_fresh (S (S (fresh w))) w)))))))))).
Proof.
  intros K D. destruct w; cbn in K, D. subst microphone0.
  unfold connect, bind, get. cbn [LiveAPI.API_KEY]. rewrite K.
  vm_compute. reflexivity.
Qed.

End ConnectOutcomes.

Section LastLog.

Lemma last_addLog prev m d : last (addLog prev m) d = m.
Proof.
  destruct (addLog_split prev m) as (dropped & kept & _ & A & _).
  rewrite A. apply last_last.
Qed.

End LastLog.

(** X4.  With an API key configured and microphone access refused,
    [connect] returns normally: the exception of [getUserMedia] is caught.
    It has created the two audio contexts and asked for the microphone and
    nothing more (no session is requested), both context refs are set, the
    session ref is untouched, [connected] is false and the last log entry
    is the system entry 'Connection Failed: ' followed by the message of
    the error. *)
Theorem connect_microphone_denied (w : World) (reason : string) :
  JS.truthy (API_KEY w) = true ->
  microphone w = Denied reason ->
  completion connect w = Normal tt /\
  connected (exec connect w) = false /\
  sessionPromiseRef (exec connect w) = sessionPromiseRef w /\
  calls (exec connect w)
  = calls w ++ [NewAudioContext (fresh w); NewAudioContext (S (fresh w));
                GetUserMedia] /\
  inputAudioContextRef (exec connect w) = Some (fresh w) /\
  outputAudioContextRef (exec connect w) = Some (S (fresh w)) /\
  last (logs (exec connect w)) (connection_failed_entry reason w)
  = connection_failed_entry reason w.
Proof.
  intros K D. unfold completion, exec. rewrite (connect_denied w reason K D).
  cbn [fst snd]. repeat split.
  - cbn. now rewrite <- !app_assoc.
  - cbn. apply last_addLog.
Qed.

Lemma connect_microphone_denied_witness :
  connected (exec connect (denied_world "NotAllowedError")) = false /\
  sessionPromiseRef (exec connect (denied_world "NotAllowedError")) = None /\
  map text (logs (exec connect (denied_world "NotAllowedError")))
  = ["Connecting to Gemini Live..."; "Connection Failed: NotAllowedError"]%string.
Proof.
  destruct (connect_microphone_denied (denied_world "NotAllowedError")
              "NotAllowedError" eq_refl eq_refl) as (_ & C & S & _).
  split; [exact C|]. split; [exact S|]. vm_compute. reflexivity.
Defined.

(** X5.  [connect] never throws, whatever the state, the key and the
    microphone.  It closes no session, leaves the set of pending sources as
    it was, and never turns [connected] on by itself: that is left to the
    session's [onopen]. *)
Theorem connect_never_throws (w : World) :
  completion connect w = Normal tt /\
  closed (calls (exec connect w)) = closed (calls w) /\
  audioSourcesRef (exec connect w) = audioSourcesRef w /\
  (connected (exec connect w) = true -> connected w = true).
Proof.
  destruct (JS.truthy (API_KEY w)) eqn:K.
  - destruct (microphone w) as [|reason] eqn:G.
    + destruct (connect_granted w K G) as (N & _ & C & _).
      split; [exact N|]. rewrite C, closed_app. cbn. rewrite app_nil_r.
      split; [reflexivity|].
      destruct w; cbn in K, G. subst microphone0.
      unfold exec, connect, bind, get. cbn [LiveAPI.API_KEY]. rewrite K.
      cbn. auto.
    + unfold completion, exec. rewrite (connect_denied w reason K G).
      cbn. rewrite !closed_app. cbn. rewrite !app_nil_r.
      repeat split. discriminate.
  - unfold completion, exec. rewrite (connect_falsy w K). cbn. auto.
Qed.

Section DisconnectForm.

Lemma calls_appended r f w :
  calls (appended r f w)
  = calls w ++ match r with Some n => [f n] | None => [] end.
Proof. destruct r; cbn; [reflexivity|now rewrite app_nil_r]. Qed.

End DisconnectForm.

(** X6.  [disconnect] awaits the session promise before anything else:
    while the promise is pending the teardown does not happen, and when it
    was rejected [disconnect] throws its reason.  In both cases the state
    is exactly as before: nothing is disconnected, closed or stopped, and
    [connected] and [volume] are not reset. *)
Theorem disconnect_needs_fulfilled_session (w : World) (p : nat) :
  sessionPromiseRef w = Some p ->
  promise_state w p <> Fulfilled ->
  exec disconnect w = w /\
  completion disconnect w
  = match promise_state w p with
    | Rejected e => Throw e
    | _ => Parked
    end.
Proof.
  intros S N. unfold completion, exec, disconnect, bind, get, optional, await.
  rewrite S. destruct (promise_state w p); [split; reflexivity|congruence|split; reflexivity].
Qed.

Lemma disconnect_needs_fulfilled_session_witness :
  audioSourcesRef rejected_session = [5%nat] /\
  exec disconnect rejected_session = rejected_session /\
  completion disconnect rejected_session = Throw "closed before open" /\
  exec disconnect pending_session = pending_session /\
  completion disconnect pending_session = Parked.
Proof.
  split; [reflexivity|].
  destruct (disconnect_needs_fulfilled_session rejected_session 2%nat eq_refl)
    as [E C]; [discriminate|].
  destruct (disconnect_needs_fulfilled_session pending_session 2%nat eq_refl)
    as [E' C']; [discriminate|].
  split; [exact E|]. split; [exact C|]. split; [exact E'|exact C'].
Defined.

Section Teardown.

Lemma appended_other r f w :
  sessionPromiseRef (appended r f w) = sessionPromiseRef w /\
  inputSourceRef (appended r f w) = inputSourceRef w /\
  processorRef (appended r f w) = processorRef w /\
  inputAudioContextRef (appended r f w) = inputAudioContextRef w /\
  outputAudioContextRef (appended r f w) = outputAudioContextRef w /\
  promise_state (appended r f w) = promise_state w /\
  logs (appended r f w) = logs w /\
  fresh (appended r f w) = fresh w.
Proof. destruct r; cbn; repeat split. Qed.

(** A [disconnect] that runs to its end. *)
Lemma disconnect_ok w :
  (forall s, In s (audioSourcesRef w) -> stop_raises w s = false) ->
  (forall p, sessionPromiseRef w = Some p -> promise_state w p = Fulfilled) ->
  exists w1,
    disconnect w
    = (Normal tt,
       set_volume 0%float
         (set_connected false
            (set_audioSourcesRef []
               (set_calls (calls w1 ++ map SourceStop (audioSourcesRef w)) w1))))
    /\ calls w1 ++ map SourceStop (audioSourcesRef w) = calls w ++ teardown_calls w
    /\ refs_of w1 = refs_of w
    /\ promise_state w1 = promise_state w
    /\ logs w1 = logs w /\ nextStartTimeRef w1 = nextStartTimeRef w
    /\ fresh w1 = fresh w.
Proof.
  intros Hs Hp.
  set (w0 := appended (sessionPromiseRef w) SessionClose w).
  set (w1 := appended (outputAudioContextRef w) ContextClose
               (appended (inputAudioContextRef w) ContextClose
                  (appended (processorRef w) NodeDisconnect
                     (appended (inputSourceRef w) NodeDisconnect w0)))).
  assert (F : audioSourcesRef w1 = audioSourcesRef w
              /\ stop_raises w1 = stop_raises w
              /\ nextStartTimeRef w1 = nextStartTimeRef w).
  { subst w1 w0.
    repeat match goal with
           | |- context [appended ?r ?f ?x] =>
               let H := fresh in
               pose proof (appended_fields r f x) as H;
               destruct H as (-> & -> & -> & _)
           end.
    auto. }
  destruct F as (Fa & Fr & Fn).
  exists w1. split; [|split; [|split; [|split; [|split; [|split]]]]].
  - unfold disconnect. erewrite bind_eq by reflexivity.
    erewrite bind_eq with (a := tt) (w' := w0).
    2:{ subst w0. destruct (sessionPromiseRef w) as [p|] eqn:E; [|reflexivity].
        unfold optional, await, call, modify, bind. now rewrite (Hp p eq_refl). }
    rewrite !bind_optional_call. fold w1.
    erewrite bind_eq.
    2:{ apply forEach_stop_ok. intros s Hin. rewrite Fr. now apply Hs. }
    reflexivity.
  - subst w1 w0. rewrite !calls_appended. unfold teardown_calls.
    now rewrite <- !app_assoc.
  - subst w1 w0. unfold refs_of.
    repeat match goal with
           | |- context [appended ?r ?f ?x] =>
               let H := fresh in
               pose proof (appended_other r f x) as H;
               destruct H as (-> & -> & -> & -> & -> & _)
           end.
    reflexivity.
  - subst w1 w0.
    repeat match goal with
           | |- context [appended ?r ?f ?x] =>
               let H := fresh in
               pose proof (appended_other r f x) as H;
               destruct H as (_ & _ & _ & _ & _ & -> & _)
           end.
    reflexivity.
  - subst w1 w0.
    repeat match goal with
           | |- context [appended ?r ?f ?x] =>
               let H := fresh in
               pose proof (appended_other r f x) as H;
               destruct H as (_ & _ & _ & _ & _ & _ & -> & _)
           end.
    reflexivity.
  - exact Fn.
  - subst w1 w0.
    repeat match goal with
           | |- context [appended ?r ?f ?x] =>
               let H := fresh in
               pose proof (appended_other r f x) as H;
               destruct H as (_ & _ & _ & _ & _ & _ & _ & ->)
           end.
    reflexivity.
Qed.

End Teardown.

(** X7.  When the session promise is fulfilled and no [stop] raises,
    [disconnect] tears down in this order: it closes the session,
    disconnects the input source and then the processor, closes the input
    and then the output context, and stops the pending sources in their
    order of insertion; each step only for a ref that is set.  It makes no
    other call and writes nothing to the log. *)
Theorem disconnect_teardown_order (w : World) :
  (forall s, In s (audioSourcesRef w) -> stop_raises w s = false) ->
  (forall p, sessionPromiseRef w = Some p -> promise_state w p = Fulfilled) ->
  completion disconnect w = Normal tt /\
  calls (exec disconnect w) = calls w ++ teardown_calls w /\
  logs (exec disconnect w) = logs w.
Proof.
  intros Hs Hp.
  destruct (disconnect_ok w Hs Hp) as (w1 & E & C & _ & _ & L & _).
  unfold completion, exec. rewrite E. cbn. auto.
Qed.

Lemma disconnect_teardown_order_witness :
  calls (exec disconnect (three_pending (fun _ => false)))
  = calls (three_pending (fun _ => false))
    ++ [SessionClose 2; NodeDisconnect 3; NodeDisconnect 4; ContextClose 0;
        ContextClose 1; SourceStop 5; SourceStop 6; SourceStop 7]%nat.
Proof.
  destruct (disconnect_teardown_order (three_pending (fun _ => false)))
    as (_ & C & _).
  - reflexivity.
  - reflexivity.
  - exact C.
Defined.

Section RefsKept.

Lemma refs_kept_modify (v : World) f :
  (forall w, refs_of (f w) = refs_of w) ->
  preserves (fun x => refs_of x = refs_of v) (modify f).
Proof. intros H. apply preserves_modify. intros w Hw. now rewrite H. Qed.

Lemma refs_kept_disconnect v :
  preserves (fun x => refs_of x = refs_of v) disconnect.
Proof.
  unfold disconnect, source_stop, call, setConnected, setVolume.
  preserving ltac:(idtac; match goal with
                   | |- preserves _ (modify _) =>
                       apply refs_kept_modify; intro; reflexivity
                   end).
Qed.

End RefsKept.

(** X8.  [disconnect] never clears a ref: however it ends, the session
    ref, the input source ref, the processor ref and the two context refs
    hold afterwards what they held before. *)
Theorem disconnect_keeps_the_refs (w : World) :
  sessionPromiseRef (exec disconnect w) = sessionPromiseRef w /\
  inputSourceRef (exec disconnect w) = inputSourceRef w /\
  processorRef (exec disconnect w) = processorRef w /\
  inputAudioContextRef (exec disconnect w) = inputAudioContextRef w /\
  outputAudioContextRef (exec disconnect w) = outputAudioContextRef w.
Proof.
  pose proof (refs_kept_disconnect w w eq_refl) as H.
  unfold refs_of in H. unfold exec. inversion H. auto.
Qed.

(** X9.  After a completed [disconnect] the hook still holds the handle of
    the session it closed: [connected] is false, yet a [sendVideoFrame]
    sends its frame to that closed session, and a second [disconnect]
    closes the same session, the nodes and the contexts once more. *)
Theorem frames_after_disconnect (w : World) (p : nat) :
  sessionPromiseRef w = Some p ->
  promise_state w p = Fulfilled ->
  (forall s, In s (audioSourcesRef w) -> stop_raises w s = false) ->
  connected (exec disconnect w) = false /\
  In (SessionClose p) (calls (exec disconnect w)) /\
  calls (exec sendVideoFrame (exec disconnect w))
  = calls (exec disconnect w) ++ [SendRealtimeInput p "image/jpeg"] /\
  calls (exec disconnect (exec disconnect w))
  = calls (exec disconnect w)
    ++ [SessionClose p]
    ++ match inputSourceRef w with Some n => [NodeDisconnect n] | None => [] end
    ++ match processorRef w with Some n => [NodeDisconnect n] | None => [] end
    ++ match inputAudioContextRef w with Some c => [ContextClose c] | None => [] end
    ++ match outputAudioContextRef w with Some c => [ContextClose c] | None => [] end.
Proof.
  intros S F Hs.
  assert (Hp : forall q, sessionPromiseRef w = Some q -> promise_state w q = Fulfilled)
    by (intros q E; congruence).
  destruct (disconnect_ok w Hs Hp) as (w1 & E & C & R & P & _).
  unfold refs_of in R. inversion R as [[R1 R2 R3 R4 R5]].
  set (w2 := exec disconnect w).
  assert (E2 : w2 = set_volume 0%float
                 (set_connected false
                    (set_audioSourcesRef []
                       (set_calls (calls w1 ++ map SourceStop (audioSourcesRef w)) w1))))
    by (subst w2; unfold exec; now rewrite E).
  assert (S2 : sessionPromiseRef w2 = Some p) by (rewrite E2; cbn; congruence).
  assert (P2 : promise_state w2 p = Fulfilled) by (rewrite E2; cbn; congruence).
  split; [rewrite E2; reflexivity|]. split.
  - rewrite E2. cbn. rewrite C. apply in_or_app. right.
    unfold teardown_calls. rewrite S. now left.
  - split.
    + unfold exec at 1, sendVideoFrame, bind, get, await, call, modify.
      rewrite S2, P2. reflexivity.
    + assert (C2 : calls (exec disconnect w2) = calls w2 ++ teardown_calls w2).
      { destruct (disconnect_ok w2) as (w3 & E3 & C3 & _).
        - rewrite E2. cbn. contradiction.
        - intros q Hq. congruence.
        - unfold exec. rewrite E3. cbn. exact C3. }
      rewrite C2. f_equal. unfold teardown_calls.
      rewrite S2. rewrite E2. cbn. rewrite R2, R3, R4, R5.
      now rewrite app_nil_r.
Qed.

Lemma frames_after_disconnect_witness :
  calls (exec sendVideoFrame (exec disconnect playing))
  = calls playing
    ++ [SessionClose 2; NodeDisconnect 3; NodeDisconnect 4; ContextClose 0;
        ContextClose 1; SourceStop 5; SendRealtimeInput 2 "image/jpeg"]%nat.
Proof.
  destruct (frames_after_disconnect playing 2%nat eq_refl eq_refl)
    as (_ & _ & V & _).
  - reflexivity.
  - rewrite V. vm_compute. reflexivity.
Defined.

(** X10.  [disconnect] on a hook that never connected (no ref set, nothing
    pending) makes no call at all and returns: it only sets [connected] to
    false and [volume] to 0; the log is unchanged. *)
Theorem disconnect_when_idle (w : World) :
  idle w ->
  completion disconnect w = Normal tt /\
  calls (exec disconnect w) = calls w /\
  connected (exec disconnect w) = false /\
  volume (exec disconnect w) = 0%float /\
  logs (exec disconnect w) = logs w.
Proof.
  intros (S & I1 & I2 & I3 & I4 & A).
  destruct (disconnect_ok w) as (w1 & E & C & _ & _ & L & _).
  - rewrite A. contradiction.
  - intros p Hp. congruence.
  - unfold completion, exec. rewrite E. cbn. rewrite C, L.
    unfold teardown_calls. rewrite S, I1, I2, I3, I4, A. cbn.
    now rewrite app_nil_r.
Qed.

Lemma disconnect_when_idle_witness :
  completion disconnect no_key = Normal tt /\
  calls (exec disconnect no_key) = [] /\
  connected (exec disconnect no_key) = false.
Proof.
  destruct (disconnect_when_idle no_key) as (N & C & D & _).
  - repeat split.
  - split; [exact N|]. split; [exact C|exact D].
Defined.

(** ** Messages, sources and capture *)

(** X11.  When the audio of a message fails to decode (and an output
    context exists), [onmessage] ends with that exception right there: the
    transcript, handled before, is already logged, but no source is
    started, the cursor is not moved, and the interruption flag of the same
    message is not acted upon: the pending sources stay. *)
Theorem decode_error_ends_the_handler
    (w : World) (message : LiveServerMessage) (now : float) (reason : string) :
  inlineData message = Some (DecodeError reason) ->
  outputAudioContextRef w <> None ->
  completion (onmessage message now) w = Throw reason /\
  exec (onmessage message now) w = transcribed message w /\
  calls (exec (onmessage message now) w) = calls w /\
  audioSourcesRef (exec (onmessage message now) w) = audioSourcesRef w /\
  nextStartTimeRef (exec (onmessage message now) w) = nextStartTimeRef w.
Proof.
  intros Ha Hc. unfold completion, exec.
  rewrite (onmessage_decode_error message now reason w Ha Hc). cbn [fst snd].
  rewrite calls_transcribed, audioSourcesRef_transcribed,
    nextStartTimeRef_transcribed. auto.
Qed.

Lemma decode_error_ends_the_handler_witness :
  interrupted garbled_interruption = true /\
  completion (onmessage garbled_interruption 11) (three_pending (fun _ => false))
  = Throw "odd length" /\
  audioSourcesRef (exec (onmessage garbled_interruption 11)
                        (three_pending (fun _ => false))) = [5; 6; 7]%nat /\
  nextStartTimeRef (exec (onmessage garbled_interruption 11)
                         (three_pending (fun _ => false))) = 11.5%float.
Proof.
  split; [reflexivity|].
  destruct (decode_error_ends_the_handler (three_pending (fun _ => false))
              garbled_interruption 11 "odd length" eq_refl)
    as (C & _ & _ & A & N).
  - discriminate.
  - split; [exact C|]. split; [exact A|exact N].
Defined.

(** X12.  A message that carries an output transcription and is not an
    interruption leaves that text as the newest log entry, with the role
    [model], whatever else the message holds (audio, audio that fails to
    decode, or none). *)
Theorem transcript_is_logged
    (w : World) (message : LiveServerMessage) (now : float) (t : string) :
  outputTranscription message = Some t ->
  interrupted message = false ->
  logs (exec (onmessage message now) w)
  = addLog (logs w) (mkLog model t (wall_clock w)) /\
  last (logs (exec (onmessage message now) w)) (mkLog model t (wall_clock w))
  = mkLog model t (wall_clock w).
Proof.
  intros Ht Hi.
  assert (L : logs (exec (onmessage message now) w)
              = addLog (logs w) (mkLog model t (wall_clock w))).
  { assert (T : logs (transcribed message w)
                = addLog (logs w) (mkLog model t (wall_clock w)))
      by (unfold transcribed; rewrite Ht; reflexivity).
    unfold exec.
    destruct (inlineData message) as [[d|r]|] eqn:Ha;
      destruct (outputAudioContextRef w) as [c|] eqn:Hc.
    - rewrite (onmessage_audio message now d w Ha Hi) by congruence. exact T.
    - rewrite (onmessage_silent message now w) by auto. exact T.
    - rewrite (onmessage_decode_error message now r w Ha) by congruence. exact T.
    - rewrite (onmessage_silent message now w) by auto. exact T.
    - rewrite (onmessage_silent message now w) by auto. exact T.
    - rewrite (onmessage_silent message now w) by auto. exact T. }
  split; [exact L|]. rewrite L. apply last_addLog.
Qed.

Lemma transcript_is_logged_witness :
  map text (logs (exec (onmessage (mkMessage (Some "Hi there"%string) false None false) 3)
                       connected_world))
  = ["Connecting to Gemini Live..."; "Session Connected."; "Hi there"]%string.
Proof.
  destruct (transcript_is_logged connected_world
              (mkMessage (Some "Hi there"%string) false None false) 3 "Hi there"%string
              eq_refl eq_refl) as [L _].
  rewrite L. reflexivity.
Defined.

Section SourcesStarted.

Lemma started_app s a b : started s a -> started s (a ++ b).
Proof. intros [t H]. exists t. apply in_or_app. now left. Qed.

Lemma sources_started_modify f :
  (forall w, audioSourcesRef (f w) = audioSourcesRef w
             /\ calls (f w) = calls w /\ fresh (f w) = fresh w) ->
  preserves sources_started (modify f).
Proof.
  intros H. apply preserves_modify. intros w Hw. unfold sources_started.
  destruct (H w) as (-> & -> & ->). exact Hw.
Qed.

Lemma sources_started_call c : preserves sources_started (call c).
Proof.
  intros w [N H]. split; [exact N|]. cbn. intros s Hs.
  destruct (H s Hs) as [St L]. split; [now apply started_app|exact L].
Qed.

Lemma sources_started_new_object : preserves sources_started new_object.
Proof.
  intros w [N H]. split; [exact N|]. cbn. intros s Hs.
  destruct (H s Hs) as [St L]. split; [exact St|lia].
Qed.

Lemma sources_started_clear :
  preserves sources_started (modify (set_audioSourcesRef [])).
Proof.
  intros w _. split; cbn; [constructor|contradiction].
Qed.

Lemma sources_started_onended s : preserves sources_started (onended s).
Proof.
  intros w [N H]. unfold onended, modify, sources_delete. cbn. split.
  - now apply NoDup_filter.
  - intros x Hx. apply filter_In in Hx as [Hx _]. now apply H.
Qed.

Lemma sources_started_schedule now d : preserves sources_started (schedule now d).
Proof.
  intros w [N H]. rewrite schedule_eq. cbn [snd]. unfold scheduled. cbn.
  assert (Hnew : ~ In (fresh w) (audioSourcesRef w)).
  { intros Hin. destruct (H _ Hin) as [_ L]. lia. }
  assert (E : sources_add (fresh w) (audioSourcesRef w)
              = audioSourcesRef w ++ [fresh w]).
  { unfold sources_add. destruct (existsb _ _) eqn:X; [|reflexivity].
    apply existsb_exists in X as (x & Hx & Ex). apply Nat.eqb_eq in Ex.
    subst. contradiction. }
  rewrite E. split.
  - apply NoDup_app; [exact N|repeat constructor; intros []|].
    intros x Hx [<-|[]]. contradiction.
  - intros s Hs. apply in_app_or in Hs as [Hs|[<-|[]]].
    + destruct (H s Hs) as [St L].
      split; [now apply started_app|cbn; lia].
    + split; [|cbn; lia]. eexists. cbn. apply in_or_app. right. now left.
Qed.

Lemma sources_started_handle e : preserves sources_started (handle e).
Proof.
  destruct e; cbn [handle];
    try apply sources_started_onended;
    unfold connect, onopen, onaudioprocess, onmessage, onclose,
      onerror, disconnect, sendVideoFrame, flush, new_AudioContext,
      getUserMedia, live_connect, source_stop, onLog, setConnected, setVolume;
    preserving ltac:(idtac; match goal with
                     | |- preserves _ (call _) => apply sources_started_call
                     | |- preserves _ new_object => apply sources_started_new_object
                     | |- preserves _ (schedule _ _) => apply sources_started_schedule
                     | |- preserves _ (modify (set_audioSourcesRef [])) =>
                         apply sources_started_clear
                     | |- preserves _ (modify _) =>
                         apply sources_started_modify; intro; repeat split
                     end).
Qed.

End SourcesStarted.

(** X13.  In every state the hook reaches from its mount, the set of
    pending sources has no duplicate and every source in it has been
    started: no source is added to the set without a [start]. *)
Theorem pending_sources_were_started
    (events : list Event) (key : option string) (mic : MediaAccess)
    (clock : Z) (promises : nat -> PromiseState) (raises : nat -> bool) :
  let w := run events (initial key mic clock promises raises) in
  NoDup (audioSourcesRef w) /\
  forall s, In s (audioSourcesRef w) ->
            exists startTime, In (SourceStart s startTime) (calls w).
Proof.
  cbv zeta.
  assert (H : sources_started (run events (initial key mic clock promises raises))).
  { apply preserves_run; [apply sources_started_handle|].
    split; cbn; [constructor|contradiction]. }
  destruct H as [N H]. split; [exact N|]. intros s Hs. now apply H.
Qed.

(** X14.  [onclose] only turns [connected] off and logs: it makes no
    call and leaves the processor in place.  So a frame captured after the
    session closed is still sent to that session, and its volume is still
    published. *)
Theorem capture_outlives_the_session
    (w : World) (p : nat) (inputData : list float) :
  sessionPromiseRef w = Some p ->
  promise_state w p = Fulfilled ->
  connected (exec onclose w) = false /\
  calls (exec onclose w) = calls w /\
  processorRef (exec onclose w) = processorRef w /\
  calls (exec (onaudioprocess inputData) (exec onclose w))
  = calls w ++ [SendRealtimeInput p "audio/pcm"] /\
  volume (exec (onaudioprocess inputData) (exec onclose w))
  = display_volume inputData.
Proof.
  intros S F. repeat split.
  - unfold exec, onaudioprocess, onclose, setConnected, setVolume, onLog,
      modify, bind, get, optional, call. cbn. rewrite S, F. reflexivity.
  - apply onaudioprocess_volume.
Qed.

Lemma capture_outlives_the_session_witness :
  connected (exec onclose playing) = false /\
  calls (exec (onaudioprocess loud_frame) (exec onclose playing))
  = calls playing ++ [SendRealtimeInput 2 "audio/pcm"] /\
  volume (exec (onaudioprocess loud_frame) (exec onclose playing)) = 1%float.
Proof.
  destruct (capture_outlives_the_session playing 2%nat loud_frame eq_refl eq_refl)
    as (C & _ & _ & S & V).
  split; [exact C|]. split; [exact S|]. rewrite V. vm_compute. reflexivity.
Defined.

(** ** The timeline and the visualizer *)

(** X15.  For a chunk that decodes, with a clock reading and a cursor
    that are numbers, [onmessage] starts exactly one source, neither before
    the clock reading nor before the cursor: at the cursor when the cursor
    is ahead of the clock (back to back with the chunk before), at the
    clock reading when the cursor is behind (after a gap). *)
Theorem chunk_starts_now_or_back_to_back
    (w : World) (message : LiveServerMessage) (d now : float) :
  inlineData message = Some (Decoded d) ->
  interrupted message = false ->
  outputAudioContextRef w <> None ->
  is_nan now = false ->
  is_nan (nextStartTimeRef w) = false ->
  exists startTime,
    calls (exec (onmessage message now) w)
    = calls w ++ [SourceStart (fresh w) startTime] /\
    (now <=? startTime)%float = true /\
    (nextStartTimeRef w <=? startTime)%float = true /\
    ((now <? nextStartTimeRef w)%float = true -> startTime = nextStartTimeRef w) /\
    ((nextStartTimeRef w <? now)%float = true -> startTime = now).
Proof.
  intros Ha Hi Hc Hn Hcur. exists (JS.Math_max now (nextStartTimeRef w)).
  unfold exec. rewrite (onmessage_audio message now d w Ha Hi Hc). cbn.
  rewrite calls_transcribed, fresh_transcribed, nextStartTimeRef_transcribed.
  split; [reflexivity|]. split; [now apply Math_max_ge_l|].
  split; [now apply Math_max_ge_r|].
  split; [apply Math_max_lt_r|apply Math_max_lt_l].
Qed.

Lemma chunk_starts_now_or_back_to_back_witness :
  calls (exec (onmessage (audio_chunk 0.5) 10.25) playing)
  = calls playing ++ [SourceStart 6 10.5]
  /\ calls (exec (onmessage (audio_chunk 0.5) 12) playing)
     = calls playing ++ [SourceStart 6 12].
Proof.
  split.
  - destruct (chunk_starts_now_or_back_to_back playing (audio_chunk 0.5) 0.5 10.25
                eq_refl eq_refl) as (s & C & _ & _ & B & _);
      [discriminate|reflexivity|reflexivity|].
    rewrite C, (B eq_refl). reflexivity.
  - destruct (chunk_starts_now_or_back_to_back playing (audio_chunk 0.5) 0.5 12
                eq_refl eq_refl) as (s & C & _ & _ & _ & U);
      [discriminate|reflexivity|reflexivity|].
    rewrite C, (U eq_refl). reflexivity.
Defined.

Section CursorCoversSources.

Lemma played_cursor_ge chunks : forall w,
  (0 <=? nextStartTimeRef w)%float = true ->
  Forall chunk_ok chunks ->
  (nextStartTimeRef w <=? nextStartTimeRef (played chunks w))%float = true /\
  (0 <=? nextStartTimeRef (played chunks w))%float = true.
Proof.
  induction chunks as [|[now d] rest IH]; intros w Hc Hok.
  - cbn. split; [apply leb_refl; now apply nonneg_not_nan|exact Hc].
  - inversion Hok as [|? ? [Hn Hd] Hrest]; subst. cbn in Hn, Hd.
    destruct (scheduled_cursor_ge now d w Hn Hd Hc) as [G P].
    destruct (IH (scheduled now d w) P Hrest) as [G' P'].
    cbn [played]. split; [|exact P']. eapply leb_trans; eassumption.
Qed.

Lemma timeline_ends_covered chunks : forall w,
  (0 <=? nextStartTimeRef w)%float = true ->
  Forall chunk_ok chunks ->
  Forall (fun se => (snd se <=? nextStartTimeRef (played chunks w))%float = true)
         (timeline (nextStartTimeRef w) chunks).
Proof.
  induction chunks as [|[now d] rest IH]; intros w Hc Hok.
  - constructor.
  - inversion Hok as [|? ? [Hn Hd] Hrest]; subst. cbn in Hn, Hd.
    destruct (scheduled_cursor_ge now d w Hn Hd Hc) as [G P].
    cbn [timeline played]. constructor.
    + cbn [snd]. apply (played_cursor_ge rest (scheduled now d w) P Hrest).
    + apply (IH (scheduled now d w) P Hrest).
Qed.

End CursorCoversSources.

(** X16.  After a run of chunks (clock readings and durations that are
    numbers from 0 up, a cursor from 0 up), no source of the run ends after
    the cursor: the cursor is at or past the end of everything scheduled. *)
Theorem cursor_covers_every_source (w : World) (chunks : list (float * float)) :
  outputAudioContextRef w <> None ->
  (0 <=? nextStartTimeRef w)%float = true ->
  Forall chunk_ok chunks ->
  Forall (fun se =>
            (snd se <=? nextStartTimeRef (exec (play chunks) w))%float = true)
         (timeline (nextStartTimeRef w) chunks).
Proof.
  intros Hc H0 Hok. unfold exec. rewrite (play_eq chunks w Hc). cbn [snd].
  now apply timeline_ends_covered.
Qed.

Lemma cursor_covers_every_source_witness :
  timeline 0 two_chunks = [(10, 10.5); (10.5, 11)]%float /\
  nextStartTimeRef (exec (play two_chunks) connected_world) = 11%float /\
  Forall (fun se =>
            (snd se <=? nextStartTimeRef (exec (play two_chunks) connected_world))%float
            = true)
         (timeline (nextStartTimeRef connected_world) two_chunks).
Proof.
  split; [reflexivity|]. split; [vm_compute; reflexivity|].
  apply (cursor_covers_every_source connected_world two_chunks).
  - discriminate.
  - reflexivity.
  - repeat constructor.
Defined.

Section Pulse.
Local Open Scope float_scope.

Lemma SFsub_finite_not_nan s m e y :
  y <> S754_nan -> SFsub prec emax (S754_finite s m e) y <> S754_nan.
Proof.
  destruct y as [sy|sy| |sy my ey]; intros H; try congruence; simpl;
    try discriminate.
  unfold binary_normalize.
  match goal with |- context [match ?z with Z0 => _ | _ => _ end] => destruct z end;
    try discriminate.
  - pose proof (binary_round_signed false p (Z.min e ey)) as B.
    intros E. rewrite E in B. exact B.
  - pose proof (binary_round_signed true p (Z.min e ey)) as B.
    intros E. rewrite E in B. exact B.
Qed.

Lemma sub_finite_not_nan a v s m e :
  Prim2SF a = S754_finite s m e -> is_nan v = false -> is_nan (a - v) = false.
Proof.
  intros Ha Hv. apply is_nan_false. rewrite FloatAxioms.sub_spec, Ha.
  apply SFsub_finite_not_nan. now apply is_nan_false.
Qed.

Lemma mul_finite_nonneg x y m e :
  Prim2SF y = S754_finite false m e ->
  (0 <=? x) = true -> (0 <=? x * y) = true.
Proof.
  intros Hy. rewrite !leb_zero, FloatAxioms.mul_spec, Hy. intros H.
  now apply SFmul_nonneg.
Qed.

End Pulse.

(** X17.  What [AudioPulse] draws from [volume].  For every volume that
    is a number, both opacities are at least 0.1; for a volume from 0 up,
    the core radius is at least 30 and the target radius at least 50.  A
    NaN volume is not guarded against: the opacity and the radius are then
    NaN. *)
Theorem pulse_parameters (volume : float) :
  (is_nan volume = false ->
   (AudioPulse.min_alpha <=? AudioPulse.glow_alpha volume)%float = true /\
   (AudioPulse.min_alpha <=? AudioPulse.ring_alpha volume)%float = true) /\
  ((0 <=? volume)%float = true ->
   (30 <=? AudioPulse.core_radius volume)%float = true /\
   (50 <=? AudioPulse.targetRadius volume)%float = true) /\
  (is_nan volume = true ->
   is_nan (AudioPulse.glow_alpha volume) = true /\
   is_nan (AudioPulse.core_radius volume) = true).
Proof.
  split; [|split].
  - intros Hv. unfold AudioPulse.glow_alpha, AudioPulse.ring_alpha. split.
    + apply Math_max_ge_l; [reflexivity|].
      eapply sub_finite_not_nan; [reflexivity|exact Hv].
    + apply Math_max_ge_l; [reflexivity|].
      eapply sub_finite_not_nan; [reflexivity|exact Hv].
  - intros Hv. unfold AudioPulse.core_radius, AudioPulse.targetRadius. split.
    + apply add_ge_l; [reflexivity|].
      eapply mul_finite_nonneg; [reflexivity|exact Hv].
    + apply add_ge_l; [reflexivity|].
      eapply mul_finite_nonneg; [reflexivity|exact Hv].
  - intros Hv. apply is_nan_spec in Hv. split.
    + unfold AudioPulse.glow_alpha, JS.Math_max.
      assert (N : is_nan (0.5 - volume)%float = true).
      { apply is_nan_spec. rewrite FloatAxioms.sub_spec, Hv. reflexivity. }
      rewrite N, orb_true_r. reflexivity.
    + apply is_nan_spec. unfold AudioPulse.core_radius.
      rewrite FloatAxioms.add_spec, FloatAxioms.mul_spec, Hv. reflexivity.
Qed.

(** ** The application *)

Import App.

Section Toggles.

Ltac feed :=
  repeat match goal with
         | |- _ /\ _ => split
         | |- forall _, _ => intro
         | H : In _ (_ ++ _) |- _ => apply in_app_or in H as [H|H]
         | H : In _ [_] |- _ => destruct H as [<-|[]]
         | H : Some _ = Some _ |- _ => injection H as <-
         | H : _ /\ _ |- _ => destruct H
         end;
  cbn in *; try discriminate; try congruence; try lia; auto.

Lemma handle_exclusive e st :
  is_toggle e && waiting st = false ->
  exclusive st -> exclusive (handle e st).
Proof.
  destruct st as [va sa vr so h cr dr n cam disp stp].
  unfold exclusive, waiting. cbn [videoActive screenActive camera_requests
    display_requests]. intros P (X & L & C & D).
  destruct e; cbn [handle hook videoActive screenActive is_toggle andb] in *.
  - cbn. auto.
  - destruct (negb (LiveAPI.connected h) && negb va); [cbn; auto|].
    destruct cr, dr; try discriminate.
    unfold toggleVideo, stopMediaTracks.
    destruct va, sa, vr, so; cbn; repeat split; intros; try lia; auto.
  - destruct (negb (LiveAPI.connected h) && negb sa); [cbn; auto|].
    destruct cr, dr; try discriminate.
    unfold toggleScreen, stopMediaTracks.
    destruct va, sa, vr, so; cbn; repeat split; intros; try lia; auto.
  - unfold camera_settled. cbn [camera_requests].
    destruct cr as [|cr]; [cbn; auto|].
    assert (S0 : sa = false) by (apply C; discriminate).
    assert (D0 : dr = 0%nat) by lia. subst sa dr.
    unfold toggleVideo_resumed, attach, log_system. cbn.
    destruct cam, vr; cbn; repeat split; intros; try lia; auto;
      try apply andb_false_r.
  - unfold display_settled. cbn [display_requests].
    destruct dr as [|dr]; [cbn; auto|].
    assert (V0 : va = false) by (apply D; discriminate).
    assert (C0 : cr = 0%nat) by lia. subst va cr.
    unfold toggleScreen_resumed, attach, log_system. cbn.
    destruct disp, vr; cbn; repeat split; intros; try lia; auto.
  - unfold screen_ended. cbn. repeat split; auto. apply andb_false_r.
  - unfold video_tick. cbn.
    destruct (LiveAPI.connected h && (va || sa)); [|cbn; auto].
    destruct (vr && canvas && (0 <? videoWidth) && (0 <? videoHeight));
      cbn; auto.
  - cbn. auto.
Qed.

Lemma run_exclusive events : forall st,
  one_at_a_time events st = true -> exclusive st -> exclusive (run events st).
Proof.
  unfold run. induction events as [|e rest IH]; intros st P H; [exact H|].
  cbn [one_at_a_time] in P. apply andb_true_iff in P as [P1 P2].
  apply negb_true_iff in P1. cbn [fold_left]. apply IH; [exact P2|].
  now apply handle_exclusive.
Qed.

Lemma handle_feed_attached e st :
  is_toggle e && waiting st = false ->
  exclusive st -> feed_attached st -> feed_attached (handle e st).
Proof.
  destruct st as [va sa vr so h cr dr n cam disp stp].
  unfold exclusive, feed_attached, waiting.
  cbn [videoActive screenActive camera_requests display_requests videoRef
         srcObject stopped next_stream].
  intros P (X & L & C & D) (R & A & S & O). subst vr.
  assert (Sn : ~ In n stp) by (intros H; apply S in H; lia).
  assert (Sl : forall s, In s stp -> (s < Datatypes.S n)%nat)
    by (intros s H; apply S in H; lia).
  destruct e; cbn [handle hook videoActive screenActive is_toggle andb] in *.
  - cbn. repeat split; auto; now apply O.
  - destruct (negb (LiveAPI.connected h) && negb va);
      [cbn; repeat split; auto; now apply O|].
    destruct cr, dr; try discriminate.
    unfold toggleVideo, stopMediaTracks.
    destruct va, sa; try discriminate; destruct so as [x|]; cbn;
      try (exfalso; now apply A);
      try (destruct (O x eq_refl) as [Ox Nx]); feed.
    all: try (apply S in H; lia).
  - destruct (negb (LiveAPI.connected h) && negb sa);
      [cbn; repeat split; auto; now apply O|].
    destruct cr, dr; try discriminate.
    unfold toggleScreen, stopMediaTracks.
    destruct va, sa; try discriminate; destruct so as [x|]; cbn;
      try (exfalso; now apply A);
      try (destruct (O x eq_refl) as [Ox Nx]); feed.
    all: try (apply S in H; lia).
  - unfold camera_settled. cbn [camera_requests].
    destruct cr as [|cr]; [cbn; repeat split; auto; now apply O|].
    unfold toggleVideo_resumed, attach, log_system. cbn.
    destruct cam; cbn; feed.
    all: try (apply S in H; lia).
    all: try (now apply O).
  - unfold display_settled. cbn [display_requests].
    destruct dr as [|dr]; [cbn; repeat split; auto; now apply O|].
    unfold toggleScreen_resumed, attach, log_system. cbn.
    destruct disp; cbn; feed.
    all: try (apply S in H; lia).
    all: try (now apply O).
  - unfold screen_ended. cbn. repeat split; auto.
    + rewrite orb_false_r. intros ->. now apply A.
    + now apply O.
    + now apply O.
  - unfold video_tick. cbn.
    destruct (LiveAPI.connected h && (va || sa));
      [|cbn; repeat split; auto; now apply O].
    destruct (canvas && (0 <? videoWidth) && (0 <? videoHeight));
      cbn; repeat split; auto; now apply O.
  - cbn. repeat split; auto; now apply O.
Qed.

Lemma run_feed_attached events : forall st,
  one_at_a_time events st = true ->
  exclusive st -> feed_attached st -> feed_attached (run events st).
Proof.
  unfold run. induction events as [|e rest IH]; intros st P X H; [exact H|].
  cbn [one_at_a_time] in P. apply andb_true_iff in P as [P1 P2].
  apply negb_true_iff in P1. cbn [fold_left]. apply IH; [exact P2| |].
  - now apply handle_exclusive.
  - now apply handle_feed_attached.
Qed.

Lemma initial_exclusive w cam disp : exclusive (initial w cam disp).
Proof. unfold exclusive. cbn. repeat split; auto; intros H; now elim H. Qed.

End Toggles.

(** X18.  As long as the toggles do not overlap (no toggle button is
    pressed while an earlier toggle still waits for its camera or screen
    request), the camera and the screen share are never active together:
    from the mounted application, after any such sequence of button
    presses, settled requests, ended screen shares, video ticks and hook
    callbacks, [videoActive] and [screenActive] are not both true. *)
Theorem camera_and_screen_never_both
    (events : list Event) (w : LiveAPI.World) (cam disp : LiveAPI.MediaAccess) :
  one_at_a_time events (initial w cam disp) = true ->
  videoActive (run events (initial w cam disp))
  && screenActive (run events (initial w cam disp)) = false.
Proof.
  intros P.
  apply (run_exclusive events (initial w cam disp) P (initial_exclusive w cam disp)).
Qed.

Lemma camera_and_screen_never_both_witness :
  videoActive (run taking_turns all_granted) = true /\
  screenActive (run taking_turns all_granted) = false /\
  videoActive (run taking_turns all_granted)
  && screenActive (run taking_turns all_granted) = false.
Proof.
  split; [vm_compute; reflexivity|]. split; [vm_compute; reflexivity|].
  apply (camera_and_screen_never_both taking_turns LiveAPI.connected_world
           LiveAPI.Granted LiveAPI.Granted).
  vm_compute. reflexivity.
Defined.

(** X19.  As long as the toggles do not overlap, whenever [videoActive]
    or [screenActive] is true the video element holds a stream, and that
    stream is not one whose tracks the application has stopped. *)
Theorem active_feed_has_a_live_stream
    (events : list Event) (w : LiveAPI.World) (cam disp : LiveAPI.MediaAccess) :
  one_at_a_time events (initial w cam disp) = true ->
  videoActive (run events (initial w cam disp))
  || screenActive (run events (initial w cam disp)) = true ->
  exists stream,
    srcObject (run events (initial w cam disp)) = Some stream /\
    ~ In stream (stopped (run events (initial w cam disp))).
Proof.
  intros P H.
  destruct (run_feed_attached events (initial w cam disp) P
              (initial_exclusive w cam disp)) as (_ & A & _ & O).
  { unfold feed_attached. cbn. repeat split; try discriminate; try contradiction. }
  specialize (A H).
  destruct (srcObject (run events (initial w cam disp))) as [s|] eqn:E;
    [|congruence].
  exists s. split; [reflexivity|]. now apply O.
Qed.

Lemma active_feed_has_a_live_stream_witness :
  stopped (run taking_turns all_granted) = [0%nat] /\
  exists stream,
    srcObject (run taking_turns all_granted) = Some stream /\
    ~ In stream (stopped (run taking_turns all_granted)).
Proof.
  split; [vm_compute; reflexivity|].
  apply (active_feed_has_a_live_stream taking_turns LiveAPI.connected_world
           LiveAPI.Granted LiveAPI.Granted).
  - vm_compute. reflexivity.
  - vm_compute. reflexivity.
Defined.

(** X20.  Switching feeds ends the running feed before the new one is
    asked for.  When the screen is shared, [toggleVideo] has, by the time
    it waits for the camera, stopped the tracks of the shared stream,
    detached it and turned [screenActive] off; when the camera is then
    refused, both flags are off, nothing is attached and the log ends with
    'Failed to access camera'.  The same holds with the roles exchanged
    for [toggleScreen], which logs 'Failed to access screen'. *)
Theorem failed_switch_ends_the_running_feed
    (st : State) (stream : nat) (reason : string) :
  videoRef st = true ->
  srcObject st = Some stream ->
  (screenActive st = true -> videoActive st = false ->
   camera st = LiveAPI.Denied reason ->
   (screenActive (toggleVideo st) = false /\
    srcObject (toggleVideo st) = None /\
    stopped (toggleVideo st) = stopped st ++ [stream] /\
    camera_requests (toggleVideo st) = S (camera_requests st)) /\
   videoActive (camera_settled (toggleVideo st)) = false /\
   screenActive (camera_settled (toggleVideo st)) = false /\
   srcObject (camera_settled (toggleVideo st)) = None /\
   stopped (camera_settled (toggleVideo st)) = stopped st ++ [stream] /\
   LiveAPI.logs (hook (camera_settled (toggleVideo st)))
   = addLog (LiveAPI.logs (hook st))
       (mkLog system "Failed to access camera" (LiveAPI.wall_clock (hook st)))) /\
  (videoActive st = true -> screenActive st = false ->
   display st = LiveAPI.Denied reason ->
   (videoActive (toggleScreen st) = false /\
    srcObject (toggleScreen st) = None /\
    stopped (toggleScreen st) = stopped st ++ [stream] /\
    display_requests (toggleScreen st) = S (display_requests st)) /\
   videoActive (display_settled (toggleScreen st)) = false /\
   screenActive (display_settled (toggleScreen st)) = false /\
   srcObject (display_settled (toggleScreen st)) = None /\
   stopped (display_settled (toggleScreen st)) = stopped st ++ [stream] /\
   LiveAPI.logs (hook (display_settled (toggleScreen st)))
   = addLog (LiveAPI.logs (hook st))
       (mkLog system "Failed to access screen" (LiveAPI.wall_clock (hook st)))).
Proof.
  destruct st as [va sa vr so h cr dr n cam disp stp]. cbn.
  intros -> ->. split; intros -> -> ->; repeat split.
Qed.

Lemma failed_switch_ends_the_running_feed_witness :
  screenActive sharing_screen = true /\
  srcObject sharing_screen = Some 0%nat /\
  screenActive (camera_settled (toggleVideo sharing_screen)) = false /\
  videoActive (camera_settled (toggleVideo sharing_screen)) = false /\
  stopped (camera_settled (toggleVideo sharing_screen)) = [0%nat] /\
  map text (LiveAPI.logs (hook (camera_settled (toggleVideo sharing_screen))))
  = ["Connecting to Gemini Live..."; "Session Connected.";
     "Failed to access camera"]%string.
Proof.
  destruct (failed_switch_ends_the_running_feed sharing_screen 0%nat
              "NotAllowedError" eq_refl eq_refl) as [C _].
  destruct (C eq_refl eq_refl eq_refl) as (_ & V & S & _ & T & L).
  split; [reflexivity|]. split; [reflexivity|].
  split; [exact S|]. split; [exact V|]. split; [exact T|].
  rewrite L. reflexivity.
Defined.

(** X21.  The video loop sends a frame only while the session is live: if
    a tick makes any call at all, then [connected] is true, the camera or
    the screen is active, the video element and the canvas are there, the
    video has a positive width and height and the session promise is
    fulfilled; and then the tick makes exactly one call, a 'image/jpeg'
    frame to that session. *)
Theorem frames_only_while_live
    (st : State) (canvas : bool) (videoWidth videoHeight : Z) :
  LiveAPI.calls (hook (video_tick canvas videoWidth videoHeight st))
  <> LiveAPI.calls (hook st) ->
  LiveAPI.connected (hook st) = true /\
  videoActive st || screenActive st = true /\
  videoRef st = true /\ canvas = true /\
  0 < videoWidth /\ 0 < videoHeight /\
  exists session,
    LiveAPI.sessionPromiseRef (hook st) = Some session /\
    LiveAPI.promise_state (hook st) session = LiveAPI.Fulfilled /\
    LiveAPI.calls (hook (video_tick canvas videoWidth videoHeight st))
    = LiveAPI.calls (hook st)
      ++ [LiveAPI.SendRealtimeInput session "image/jpeg"].
Proof.
  unfold video_tick.
  destruct (LiveAPI.connected (hook st)); [|cbn; congruence].
  destruct (videoActive st || screenActive st); [|cbn; congruence].
  destruct (videoRef st); [|cbn; congruence].
  destruct canvas; [|cbn; congruence].
  destruct (0 <? videoWidth) eqn:W; [|cbn; congruence].
  destruct (0 <? videoHeight) eqn:H; [|cbn; congruence].
  apply Z.ltb_lt in W, H. cbn [andb hook set_hook].
  unfold LiveAPI.exec, LiveAPI.sendVideoFrame, LiveAPI.bind, LiveAPI.get,
    LiveAPI.await, LiveAPI.call, LiveAPI.modify.
  destruct (LiveAPI.sessionPromiseRef (hook st)) as [p|]; [|cbn; congruence].
  destruct (LiveAPI.promise_state (hook st) p) eqn:P; cbn; try congruence.
  intros _. repeat split; try assumption. exists p. auto.
Qed.

Lemma frames_only_while_live_witness :
  LiveAPI.calls (hook (video_tick true 640 480 camera_on))
  = LiveAPI.calls (hook camera_on)
    ++ [LiveAPI.SendRealtimeInput 2 "image/jpeg"].
Proof.
  destruct (frames_only_while_live camera_on true 640 480)
    as (_ & _ & _ & _ & _ & _ & p & S & _ & C).
  - intros H. apply (f_equal (@List.length _)) in H. vm_compute in H.
    discriminate.
  - injection S as <-. exact C.
Defined.

(** X22.  The Disconnect button (a [disconnect] that completes) leaves
    the feed as it is: the flags, the attached stream and the stopped
    streams are unchanged, so a camera that was on stays on; but
    [connected] is false, and from then on a video tick does nothing. *)
Theorem disconnect_leaves_the_feed_on (st : State) :
  LiveAPI.connected (hook st) = true ->
  (forall p, LiveAPI.sessionPromiseRef (hook st) = Some p ->
             LiveAPI.promise_state (hook st) p = LiveAPI.Fulfilled) ->
  (forall s, In s (LiveAPI.audioSourcesRef (hook st)) ->
             LiveAPI.stop_raises (hook st) s = false) ->
  let st' := handle ConnectButton st in
  LiveAPI.connected (hook st') = false /\
  videoActive st' = videoActive st /\
  screenActive st' = screenActive st /\
  srcObject st' = srcObject st /\
  stopped st' = stopped st /\
  forall canvas videoWidth videoHeight,
    handle (VideoTick canvas videoWidth videoHeight) st' = st'.
Proof.
  intros C Hp Hs. cbv zeta. cbn [handle]. rewrite C.
  destruct (disconnect_ok (hook st) Hs Hp) as (w1 & E & _).
  unfold LiveAPI.exec. rewrite E. cbn [snd].
  repeat split.
Qed.

Lemma disconnect_leaves_the_feed_on_witness :
  videoActive camera_on = true /\
  videoActive (handle ConnectButton camera_on) = true /\
  srcObject (handle ConnectButton camera_on) = Some 0%nat /\
  stopped (handle ConnectButton camera_on) = [] /\
  LiveAPI.connected (hook (handle ConnectButton camera_on)) = false /\
  handle (VideoTick true 640 480) (handle ConnectButton camera_on)
  = handle ConnectButton camera_on.
Proof.
  destruct (disconnect_leaves_the_feed_on camera_on) as (C & V & _ & S & T & K).
  - reflexivity.
  - intros p H. injection H as <-. reflexivity.
  - intros s [<-|[]]. reflexivity.
  - split; [reflexivity|]. split; [rewrite V; reflexivity|].
    split; [rewrite S; reflexivity|]. split; [rewrite T; reflexivity|].
    split; [exact C|apply K].
Defined.

(** X23.  Overlapping toggles defeat the exclusion: neither toggle tests
    the other flag again after its [await].  With both feeds off, both
    requests granted and the session connected, pressing the camera and
    the screen button before either request is settled leaves [videoActive]
    and [screenActive] both true, the second stream attached and the first
    one neither attached nor stopped.  Pressing the camera button once
    more then stops and detaches the attached stream and turns only
    [videoActive] off: [screenActive] stays true with no stream. *)
Theorem overlapping_toggles_leave_both_on (st : State) :
  LiveAPI.connected (hook st) = true ->
  videoActive st = false ->
  screenActive st = false ->
  videoRef st = true ->
  camera st = LiveAPI.Granted ->
  display st = LiveAPI.Granted ->
  one_at_a_time overlapping st = false /\
  videoActive (run overlapping st) = true /\
  screenActive (run overlapping st) = true /\
  srcObject (run overlapping st) = Some (S (next_stream st)) /\
  stopped (run overlapping st) = stopped st /\
  videoActive (handle VideoButton (run overlapping st)) = false /\
  screenActive (handle VideoButton (run overlapping st)) = true /\
  srcObject (handle VideoButton (run overlapping st)) = None /\
  stopped (handle VideoButton (run overlapping st))
  = stopped st ++ [S (next_stream st)].
Proof.
  destruct st as [va sa vr so h cr dr n cam disp stp]. destruct h.
  cbn [hook videoActive screenActive videoRef camera display
         LiveAPI.connected].
  intros -> -> -> -> -> ->.
  split; [destruct cr, dr; vm_compute; reflexivity|].
  repeat match goal with |- _ /\ _ => split end; vm_compute; reflexivity.
Qed.

Lemma overlapping_toggles_leave_both_on_witness :
  videoActive (run overlapping all_granted) = true /\
  screenActive (run overlapping all_granted) = true /\
  srcObject (run overlapping all_granted) = Some 1%nat /\
  stopped (run overlapping all_granted) = [] /\
  screenActive (handle VideoButton (run overlapping all_granted)) = true /\
  srcObject (handle VideoButton (run overlapping all_granted)) = None.
Proof.
  destruct (overlapping_toggles_leave_both_on all_granted)
    as (_ & V & S & O & T & _ & S' & O' & _); try reflexivity.
  split; [exact V|]. split; [exact S|]. split; [exact O|].
  split; [exact T|]. split; [exact S'|exact O'].
Defined.
